(** * Restore client of BR: a shallow embedding and its properties

    The development follows the Go sources of the restore package:
    - [pkg/restore/client.go]: [ResetTS], [setSpeedLimit], [RestoreFiles],
      [switchTiKVMode], [ValidateChecksum];
    - the [DB] helper file of the same package: [CreateTable],
      [FilterDDLJobs], [getDatabases].

    Sequential code is embedded as functions with explicit state passing.
    The two fan-out/fan-in phases ([RestoreFiles], [ValidateChecksum]) are
    embedded as transition systems over the goroutines they start; every
    transition is an executable function of a scheduler choice. *)

From Stdlib Require Import ZArith String Ascii.
From stdpp Require Import base decidable option list sorting gmap strings pretty relations.

Set Warnings "-clear-no-such-hyp".

Local Open Scope Z_scope.

(** ** Data model shared by the phases *)

(** [model.DBInfo] and [model.TableInfo], restricted to the fields the
    restore package reads.  [CIStr.String()] returns the original spelling,
    which is what the names below hold. *)
Record DBInfo := mkDBInfo { db_ID : Z; db_Name : string }.

Record TableInfo := mkTableInfo {
  tbl_ID : Z;
  tbl_Name : string;
  AutoIncID : Z
}.

(** [model.HistoryInfo]: the two info pointers may be nil. *)
Record HistoryInfo := mkHistoryInfo {
  SchemaVersion : Z;
  hist_DBInfo : option DBInfo;
  hist_TableInfo : option TableInfo
}.

(** [model.Job]. *)
Record Job := mkJob {
  SchemaID : Z;
  TableID : Z;
  SchemaName : string;
  Query : string;
  BinlogInfo : HistoryInfo
}.

(** [utils.Table]: a table of the backup with its statistics. *)
Record Table := mkTable {
  Db : DBInfo;
  Info : TableInfo;
  Crc64Xor : Z;
  TotalKvs : Z;
  TotalBytes : Z
}.

(** ** The schema-history filter *)

Module History.

(** [sort.Slice] with the comparison [ver i > ver j]: descending schema
    version.  Go does not promise stability; the embedding inserts each job
    in front of the first job whose version is not greater, which keeps
    equal versions in input order.  [sort_desc_unique] below shows that on
    histories with pairwise distinct versions every correct sort agrees
    with it; [Ties] has a correct sort that arranges equal versions in
    another way. *)
Definition ver (j : Job) : Z := SchemaVersion (BinlogInfo j).

Fixpoint insert_desc (j : Job) (l : list Job) : list Job :=
  match l with
  | [] => [j]
  | k :: l' =>
      if ver j <? ver k then k :: insert_desc j l' else j :: k :: l'
  end.

Definition sort_desc (l : list Job) : list Job := foldr insert_desc [] l.

(** The two maps [map[int64]bool] and [map[string]bool] of one traced
    object.  Only [true] is ever stored, and a missing key reads [false]:
    they are sets. *)
Record alias := mkAlias { ids : gset Z; names : gset string }.

(** [getDatabases]: the databases of the tables, first occurrence of each
    identifier, in table order. *)
Fixpoint getDatabases_from (dbIDs : gset Z) (tables : list Table) : list DBInfo :=
  match tables with
  | [] => []
  | t :: rest =>
      if bool_decide (db_ID (Db t) ∈ dbIDs)
      then getDatabases_from dbIDs rest
      else Db t :: getDatabases_from ({[db_ID (Db t)]} ∪ dbIDs) rest
  end.

Definition getDatabases (tables : list Table) : list DBInfo :=
  getDatabases_from ∅ tables.

(** *** Database loop *)

Definition db_seed (db : DBInfo) : alias :=
  mkAlias {[db_ID db]} {[db_Name db]}.

(** The test [job.BinlogInfo.DBInfo != nil] and
    [dbIDs[job.SchemaID] || dbNames[job.BinlogInfo.DBInfo.Name.String()]]. *)
Definition db_selects (a : alias) (job : Job) : bool :=
  match hist_DBInfo (BinlogInfo job) with
  | Some di =>
      bool_decide (SchemaID job ∈ ids a) || bool_decide (db_Name di ∈ names a)
  | None => false
  end.

(** The two assignments in the body of the test. *)
Definition db_extend (a : alias) (job : Job) : alias :=
  match hist_DBInfo (BinlogInfo job) with
  | Some di => mkAlias ({[SchemaID job]} ∪ ids a) ({[db_Name di]} ∪ names a)
  | None => a
  end.

(** *** Table loop *)

Definition tbl_seed (t : Table) : alias :=
  mkAlias {[tbl_ID (Info t)]} {[tbl_Name (Info t)]}.

Definition tbl_selects (a : alias) (job : Job) : bool :=
  match hist_TableInfo (BinlogInfo job) with
  | Some ti =>
      bool_decide (TableID job ∈ ids a) || bool_decide (tbl_Name ti ∈ names a)
  | None => false
  end.

Definition tbl_extend (a : alias) (job : Job) : alias :=
  match hist_TableInfo (BinlogInfo job) with
  | Some ti =>
      mkAlias ({[tbl_ID ti]} ∪ ({[TableID job]} ∪ ids a))
              ({[tbl_Name ti]} ∪ names a)
  | None => a
  end.

(** *** One inner loop, for either kind of object

    The inner [for _, job := range allDDLJobs] threads the alias sets and
    the shared result slice [ddlJobs]. *)
Section Scan.
Variable selects : alias → Job → bool.
Variable extend : alias → Job → alias.

Definition visit (st : alias * list Job) (job : Job) : alias * list Job :=
  if selects st.1 job then (extend st.1 job, st.2 ++ [job]) else st.

Definition scan (a : alias) (out : list Job) (jobs : list Job)
  : alias * list Job :=
  foldl visit (a, out) jobs.

(** The alias sets reached after walking [jobs]. *)
Definition alias_after (a : alias) (jobs : list Job) : alias :=
  (scan a [] jobs).1.

(** The jobs one walk appends. *)
Fixpoint selected (a : alias) (jobs : list Job) : list Job :=
  match jobs with
  | [] => []
  | job :: rest =>
      if selects a job then job :: selected (extend a job) rest
      else selected a rest
  end.

(** No job rejected by [keep] is selected during the walk. *)
Fixpoint untouched (keep : Job → bool) (a : alias) (jobs : list Job) : bool :=
  match jobs with
  | [] => true
  | job :: rest =>
      if selects a job
      then keep job && untouched keep (extend a job) rest
      else untouched keep a rest
  end.
End Scan.

(** [FilterDDLJobs] over a given sorting routine: sort, then one walk per
    database, then one walk per table, all appending to the same slice. *)
Definition FilterDDLJobs_with (sort : list Job → list Job)
    (allDDLJobs : list Job) (tables : list Table) : list Job :=
  let sorted := sort allDDLJobs in
  let ddlJobs :=
    foldl (λ out db, (scan db_selects db_extend (db_seed db) out sorted).2)
          [] (getDatabases tables) in
  foldl (λ out t, (scan tbl_selects tbl_extend (tbl_seed t) out sorted).2)
        ddlJobs tables.

Definition FilterDDLJobs : list Job → list Table → list Job :=
  FilterDDLJobs_with sort_desc.

(** Descending by version, the order [sort.Slice] establishes; and what
    any routine standing for [sort.Slice] guarantees. *)
Definition desc : list Job → Prop := StronglySorted (λ a b, ver b ≤ ver a).

Definition sorts_desc (sort : list Job → list Job) : Prop :=
  ∀ l, desc (sort l) ∧ sort l ≡ₚ l.

(** The identifiers and names a selected job contributes. *)
Definition db_job_ids (job : Job) : list Z := [SchemaID job].
Definition db_job_names (job : Job) : list string :=
  match hist_DBInfo (BinlogInfo job) with Some di => [db_Name di] | None => [] end.
Definition tbl_job_ids (job : Job) : list Z :=
  match hist_TableInfo (BinlogInfo job) with
  | Some ti => [TableID job; tbl_ID ti]
  | None => []
  end.
Definition tbl_job_names (job : Job) : list string :=
  match hist_TableInfo (BinlogInfo job) with Some ti => [tbl_Name ti] | None => [] end.

(** No job rejected by [keep] is selected in any walk over the sorted
    history: the rejected jobs never enter an alias set of a target. *)
Definition irrelevant (keep : Job → bool) (allDDLJobs : list Job)
    (tables : list Table) : bool :=
  forallb (λ db, untouched db_selects db_extend keep (db_seed db)
                   (sort_desc allDDLJobs))
          (getDatabases tables) &&
  forallb (λ t, untouched tbl_selects tbl_extend keep (tbl_seed t)
                  (sort_desc allDDLJobs))
          tables.

(** Sample history used in the examples: database [a] (identifier 1) with
    table [t] (identifier 10). *)
Definition ex_db : DBInfo := mkDBInfo 1 "a".
Definition ex_table : Table := mkTable ex_db (mkTableInfo 10 "t" 0) 0 0 0.

(** A table-level job of database 1: it carries no [DBInfo]. *)
Definition ex_job_noinfo : Job :=
  mkJob 1 99 "a" "create table other (c int)"
        (mkHistoryInfo 5 None (Some (mkTableInfo 99 "other" 0))).

(** A database-level job issued under identifier 1 whose resulting
    [DBInfo] carries identifier 2. *)
Definition ex_job_newid : Job :=
  mkJob 1 0 "a" "alter database a charset utf8"
        (mkHistoryInfo 6 (Some (mkDBInfo 2 "a")) None).

(** A job of an unrelated database, and a job of table [t]. *)
Definition ex_job_other : Job :=
  mkJob 7 0 "x" "create database x"
        (mkHistoryInfo 2 (Some (mkDBInfo 7 "x")) None).
Definition ex_job_t : Job :=
  mkJob 1 10 "a" "alter table t add column d int"
        (mkHistoryInfo 1 None (Some (mkTableInfo 10 "t" 0))).
Definition ex_history : list Job := [ex_job_t; ex_job_other; ex_job_newid].
Definition ex_keep (job : Job) : bool := negb (SchemaID job =? 7).

(** The sequence of the comment in [FilterDDLJobs], for a database that
    ends as [a] with identifier 2: rename [a] to [b] (identifier 1), drop
    [b] (1), create [b] (2), rename [b] to [a] (2). *)
Definition ex_lineage : list Job :=
  [mkJob 1 0 "a" "rename a to b" (mkHistoryInfo 1 (Some (mkDBInfo 1 "b")) None);
   mkJob 1 0 "b" "drop b" (mkHistoryInfo 2 (Some (mkDBInfo 1 "b")) None);
   mkJob 2 0 "b" "create b" (mkHistoryInfo 3 (Some (mkDBInfo 2 "b")) None);
   mkJob 2 0 "b" "rename b to a" (mkHistoryInfo 4 (Some (mkDBInfo 2 "a")) None)].
Definition ex_lineage_table : Table :=
  mkTable (mkDBInfo 2 "a") (mkTableInfo 10 "t" 0) 0 0 0.

End History.


(** ** Errors and collaborators *)

(** A Go [error] value is represented by its message; [nil] is [None].
    [errors.Trace] only attaches a stack trace and is the identity here. *)
Definition error : Type := string.

(** What a Go call produces: a normal return or a run-time panic. *)
Inductive outcome (A : Type) : Type :=
  | Return (a : A)
  | Panic.
Arguments Return {A} a.
Arguments Panic {A}.

(** ** Advancing the cluster clock *)

Module Clock.

(** The closure passed to [utils.WithRetry] captures [i] and [pdAddrs]; the
    state below is the captured counter together with the list of endpoints
    contacted so far. *)
Record closure_state := mkClosure { i : nat; contacted : list string }.

(** Modelled from the spec: [utils.WithRetry] and the backoffer returned by
    [newResetTSBackoffer] are not among the given sources.  The retryable
    function is called until it returns nil or the bounded number of
    [attempts] of the backoff policy is used up; the last error is then
    returned. *)
Fixpoint WithRetry {S : Type} (attempts : nat)
    (retryable : S → outcome (S * option error)) (lastErr : option error)
    (s : S) : outcome (S * option error) :=
  match attempts with
  | O => Return (s, lastErr)
  | Datatypes.S n =>
      match retryable s with
      | Panic => Panic
      | Return (s', None) => Return (s', None)
      | Return (s', Some e) => WithRetry n retryable (Some e) s'
      end
  end.

Section ResetTS.
(** [utils.ResetTS(addr, ts)]: the answer of endpoint [addr] to the
    [n]-th request of this call. *)
Variable pdResetTS : nat → string → option error.

(** The body of the closure:
    [idx := i % len(pdAddrs); return utils.ResetTS(pdAddrs[idx], restoreTS)].
    [i] is read and never assigned.  The remainder panics on an empty
    list. *)
Definition reset_once (pdAddrs : list string) (s : closure_state)
  : outcome (closure_state * option error) :=
  match pdAddrs with
  | [] => Panic
  | _ =>
      let idx := (i s `mod` length pdAddrs)%nat in
      match pdAddrs !! idx with
      | Some addr =>
          Return (mkClosure (i s) (contacted s ++ [addr]),
                  pdResetTS (length (contacted s)) addr)
      | None => Panic
      end
  end.

Definition ResetTS (attempts : nat) (pdAddrs : list string)
  : outcome (closure_state * option error) :=
  WithRetry attempts (reset_once pdAddrs) None (mkClosure 0 []).
End ResetTS.

(** Round robin as the endpoints would be visited with the counter
    advanced on every attempt. *)
Definition round_robin (pdAddrs : list string) (n : nat) : list string :=
  omap (λ k, pdAddrs !! (k `mod` length pdAddrs)%nat) (seq 0 n).

(** Sample run: two endpoints, every request refused. *)
Definition ex_addrs : list string := ["pd-0:2379"; "pd-1:2379"].
Definition ex_refuse : nat → string → option error :=
  λ _ _, Some "connection refused".

End Clock.

(** The fields of [Client] the phases below read and write: the configured
    rate limit, the one-shot flag, and whether [rc.ctx] has been cancelled
    (by [rc.cancel], by [Close], or through the parent context). *)
Record Client := mkClient {
  rateLimit : Z;
  hasSpeedLimited : bool;
  ctx_done : bool
}.

(** ** Broadcasts to the storage nodes *)

(** [metapb.Store], restricted to what the client reads. *)
Record Store := mkStore { store_id : Z; store_address : string }.

Inductive SwitchMode := SwitchMode_Normal | SwitchMode_Import.

Module Broadcast.

(** The answers of the cluster to one broadcast. *)
Record net := mkNet {
  (** [pdClient.GetAllStores] with tombstones excluded *)
  GetAllStores : error + list Store;
  (** [grpc.DialContext] to the address of a node *)
  dial : Store → option error;
  (** the unary [SwitchMode] call *)
  switch_rpc : Store → option error;
  (** [conn.Close] *)
  close : Store → option error;
  (** [fileImporter.setDownloadSpeedLimit] by node identifier *)
  setDownloadSpeedLimit : Z → option error
}.

(** The ingest mode each node is in, by node identifier. *)
Abbreviation cluster := (gmap Z SwitchMode).

(** The loop over the stores of [switchTiKVMode].  A node that cannot be
    dialled or whose call fails ends the loop with that error; a failed
    [Close] is logged and the loop goes on. *)
Fixpoint switch_stores (n : net) (mode : SwitchMode) (stores : list Store)
    (c : cluster) : cluster * option error :=
  match stores with
  | [] => (c, None)
  | store :: rest =>
      match dial n store with
      | Some e => (c, Some e)
      | None =>
          match switch_rpc n store with
          | Some e => (c, Some e)
          | None => switch_stores n mode rest (<[store_id store := mode]> c)
          end
      end
  end.

Definition switchTiKVMode (n : net) (mode : SwitchMode) (c : cluster)
  : cluster * option error :=
  match GetAllStores n with
  | inl e => (c, Some e)
  | inr stores => switch_stores n mode stores c
  end.

Definition SwitchToImportMode (n : net) := switchTiKVMode n SwitchMode_Import.
Definition SwitchToNormalMode (n : net) := switchTiKVMode n SwitchMode_Normal.

(** A node answers both the dial and the call. *)
Definition answers (n : net) (store : Store) : bool :=
  bool_decide (dial n store = None) && bool_decide (switch_rpc n store = None).

(** The error a node that does not answer produces. *)
Definition node_error (n : net) (store : Store) : option error :=
  match dial n store with
  | Some e => Some e
  | None => switch_rpc n store
  end.

(** *** The rate limit *)


(** The loop over the stores of [setSpeedLimit]; [rpcs] lists the node
    identifiers a rate-limit call was issued to. *)
Fixpoint limit_stores (n : net) (stores : list Store) (rpcs : list Z)
    : list Z * option error :=
  match stores with
  | [] => (rpcs, None)
  | store :: rest =>
      match setDownloadSpeedLimit n (store_id store) with
      | Some e => (rpcs ++ [store_id store], Some e)
      | None => limit_stores n rest (rpcs ++ [store_id store])
      end
  end.

Definition setSpeedLimit (n : net) (rc : Client) (rpcs : list Z)
    : Client * list Z * option error :=
  if negb (hasSpeedLimited rc) && negb (rateLimit rc =? 0) then
    match GetAllStores n with
    | inl e => (rc, rpcs, Some e)
    | inr stores =>
        match limit_stores n stores rpcs with
        | (rpcs', Some e) => (rc, rpcs', Some e)
        | (rpcs', None) => (mkClient (rateLimit rc) true (ctx_done rc), rpcs', None)
        end
    end
  else (rc, rpcs, None).

(** Sample cluster of three nodes; node 2 refuses connections. *)
Definition ex_stores : list Store :=
  [mkStore 1 "tikv-1:20160"; mkStore 2 "tikv-2:20160"; mkStore 3 "tikv-3:20160"].
Definition ex_net : net :=
  mkNet (inr ex_stores)
        (λ s, if store_id s =? 2 then Some "connection refused" else None)
        (λ _, None) (λ _, None) (λ _, None).

End Broadcast.

(** ** Creating a table *)

Module Schema.

(** [strings.ToUpper] on the bytes of a statement.  Letters [a]-[z] are
    mapped to [A]-[Z]; every other byte is kept.  Outside ASCII Go maps
    runes, none of which becomes a letter of [CREATE] or [TABLE], so the two
    comparisons of [CreateTable] read the same. *)
Definition upper_ascii (c : ascii) : ascii :=
  let n := nat_of_ascii c in
  if ((97 <=? n) && (n <=? 122))%nat then ascii_of_nat (n - 32) else c.

Fixpoint ToUpper (s : string) : string :=
  match s with
  | EmptyString => EmptyString
  | String c rest => String (upper_ascii c) (ToUpper rest)
  end.

(** The text before and after the first space, if there is one. *)
Fixpoint cut (s : string) : option (string * string) :=
  match s with
  | EmptyString => None
  | String c rest =>
      if Ascii.eqb c " " then Some (EmptyString, rest)
      else match cut rest with
           | Some (a, b) => Some (String c a, b)
           | None => None
           end
  end.

(** [strings.SplitN(s, " ", n)] for [n >= 0]: at most [n] pieces, the last
    one being the remainder that is not split. *)
Fixpoint SplitN (s : string) (n : nat) : list string :=
  match n with
  | O => []
  | S O => [s]
  | S n' =>
      match cut s with
      | Some (a, b) => a :: SplitN b n'
      | None => [s]
      end
  end.

(** The statement that is executed in place of the generated one. *)
Definition insert_if_not_exists (createSQL : string) : string :=
  match SplitN createSQL 3 with
  | [w0; w1; w2] =>
      if bool_decide (ToUpper w0 = "CREATE") && bool_decide (ToUpper w1 = "TABLE")
      then "CREATE TABLE IF NOT EXISTS " +:+ w2
      else createSQL
  | _ => createSQL
  end.

(** A word as [SplitN] delimits it: no space inside. *)
Fixpoint has_space (s : string) : bool :=
  match s with
  | EmptyString => false
  | String c rest => Ascii.eqb c " " || has_space rest
  end.

Section Session.
(** The session of the statement engine and its [Execute]; the result
    sets are dropped by the callers. *)
Context {session : Type}.
Variable Execute : session → string → session * option error.

(** [escapeTableName] of the same package is not among the given sources;
    it is taken as given. *)
Variable escapeTableName : string → string.

(** [db.se.Execute(ctx, sql)], recording the statement. *)
Definition exec (st : session * list string) (sql : string)
  : (session * list string) * option error :=
  let '(se, r) := Execute st.1 sql in ((se, st.2 ++ [sql]), r).

Definition switchDbSQL (table : Table) : string :=
  "use " +:+ db_Name (Db table) +:+ ";".

Definition alterAutoIncIDSQL (table : Table) : string :=
  "alter table " +:+ escapeTableName (tbl_Name (Info table)) +:+
  " auto_increment = " +:+ pretty (AutoIncID (Info table)).

(** [CreateTable].  [showCreate] is what
    [executor.ConstructResultOfShowCreateTable] produced for the table:
    an error or the statement text. *)
Definition CreateTable (showCreate : error + string) (table : Table)
    (st : session * list string) : (session * list string) * option error :=
  match showCreate with
  | inl e => (st, Some e)
  | inr createSQL =>
      match exec st (switchDbSQL table) with
      | (st1, Some e) => (st1, Some e)
      | (st1, None) =>
          match exec st1 (insert_if_not_exists createSQL) with
          | (st2, Some e) => (st2, Some e)
          | (st2, None) => exec st2 (alterAutoIncIDSQL table)
          end
      end
  end.
End Session.

(** Sample engine.  The session is the list of the tables that exist, each
    written as in the statement that created it.  A plain [CREATE TABLE] of
    an existing table is an error, one with [IF NOT EXISTS] is not and
    leaves the table as it is; every other statement is accepted. *)
Definition first_word (s : string) : string :=
  match cut s with Some (w, _) => w | None => s end.

Definition strip_prefix (p s : string) : option string :=
  if String.prefix p s
  then Some (String.substring (String.length p)
                              (String.length s - String.length p) s)
  else None.

Definition ex_execute (se : list string) (sql : string)
    : list string * option error :=
  match strip_prefix "CREATE TABLE IF NOT EXISTS " sql with
  | Some rest =>
      (if bool_decide (first_word rest ∈ se) then se
       else se ++ [first_word rest], None)
  | None =>
      match strip_prefix "CREATE TABLE " sql with
      | Some rest =>
          if bool_decide (first_word rest ∈ se)
          then (se, Some "table already exists")
          else (se ++ [first_word rest], None)
      | None => (se, None)
      end
  end.
Definition ex_escape (name : string) : string := "`" +:+ name +:+ "`".
Definition ex_table : Table :=
  mkTable (mkDBInfo 1 "test") (mkTableInfo 10 "t" 42) 0 0 0.

End Schema.

(** ** Restoring files through the worker pool *)

Module Restore.
Import Broadcast.

(** [backup.File]; only its identity matters here. *)
Record File := mkFile { file_name : string }.

(** Where one task submitted to the pool stands.  Go evaluates the operands
    of every case of a [select] on entry, so the task first runs
    [rc.fileImporter.Import] to completion and only then chooses between the
    receive from [rc.ctx.Done()] and the send of the result. *)
Inductive phase :=
  | Importing                       (* evaluating [Import(fileReplica, rewriteRules)] *)
  | Selecting (r : option error)    (* at the [select], holding the result *)
  | Notifying                       (* result sent, about to send on [updateCh] *)
  | Finished (delivered : bool).    (* [wg.Done] ran; [delivered] tells which case was taken *)

(** Where the calling goroutine stands. *)
Inductive control :=
  | Dispatching                     (* [for _, file := range files] *)
  | Collecting (received : nat)     (* [for range files], iteration [received] *)
  | Waiting (err : error)           (* after [rc.cancel()], in [wg.Wait()] *)
  | Returned (err : option error).

(** [errCh] holds the values in flight, oldest first; each value is paired
    with the index of the task that sent it.  [consumed] lists what the
    caller has received. *)
Record state := mkState {
  pc : control;
  tasks : list phase;
  errCh : list (nat * option error);
  cancelled : bool;
  progress : nat;
  consumed : list (nat * option error)
}.

(** A scheduler choice: the caller moves, or task [i] moves; [done_case]
    is the case a [select] with both cases ready picks. *)
Inductive choice :=
  | Main
  | Task (i : nat) (done_case : bool).

Definition busy_w (p : phase) : nat :=
  match p with Finished _ => 0 | _ => 1 end.
Definition sent_w (p : phase) : nat :=
  match p with Notifying | Finished _ => 1 | _ => 0 end.
Definition delivered_w (p : phase) : nat :=
  match p with Finished true => 1 | _ => 0 end.

(** Workers of the pool in use, signals sent, tasks that delivered their
    result and finished. *)
Definition busy (ts : list phase) : nat := sum_list_with busy_w ts.
Definition sent (ts : list phase) : nat := sum_list_with sent_w ts.
Definition delivered (ts : list phase) : nat := sum_list_with delivered_w ts.

Section Run.
(** The result of [rc.fileImporter.Import] for a file. *)
Variable Import : File → option error.
(** Modelled from the spec: [utils.WorkerPool] is not among the given
    sources.  [Apply] blocks the caller while all [width] workers are in
    use and otherwise starts the task on a free worker, which is free
    again when the task returns. *)
Variable width : nat.
Variable files : list File.

Definition main_step (s : state) : option state :=
  match pc s with
  | Dispatching =>
      match files !! length (tasks s) with
      | Some _ =>
          if decide (busy (tasks s) < width)%nat
          then Some (mkState Dispatching (tasks s ++ [Importing]) (errCh s)
                             (cancelled s) (progress s) (consumed s))
          else None
      | None =>
          Some (mkState (Collecting 0) (tasks s) (errCh s)
                        (cancelled s) (progress s) (consumed s))
      end
  | Collecting k =>
      if decide (k < length files)%nat then
        match errCh s with
        | [] => None
        | (i, None) :: q =>
            Some (mkState (Collecting (S k)) (tasks s) q
                          (cancelled s) (progress s)
                          (consumed s ++ [(i, None)]))
        | (i, Some e) :: q =>
            Some (mkState (Waiting e) (tasks s) q
                          true (progress s)
                          (consumed s ++ [(i, Some e)]))
        end
      else
        Some (mkState (Returned None) (tasks s) (errCh s)
                      (cancelled s) (progress s) (consumed s))
  | Waiting e =>
      if decide (busy (tasks s) = 0)%nat
      then Some (mkState (Returned (Some e)) (tasks s) (errCh s)
                         (cancelled s) (progress s) (consumed s))
      else None
  | Returned _ => None
  end.

Definition set_task (s : state) (i : nat) (p : phase) : state :=
  mkState (pc s) (<[i := p]> (tasks s)) (errCh s)
          (cancelled s) (progress s) (consumed s).

Definition send (s : state) (i : nat) (r : option error) (p : phase) : state :=
  mkState (pc s) (<[i := p]> (tasks s)) (errCh s ++ [(i, r)])
          (cancelled s) (progress s) (consumed s).

Definition task_step (i : nat) (done_case : bool) (s : state) : option state :=
  match tasks s !! i with
  | Some Importing =>
      match files !! i with
      | Some f => Some (set_task s i (Selecting (Import f)))
      | None => None
      end
  | Some (Selecting r) =>
      (* [errCh] has capacity [len(files)] *)
      if decide (length (errCh s) < length files)%nat then
        if cancelled s && done_case
        then Some (send s i None (Finished false))
        else Some (send s i r Notifying)
      else None
  | Some Notifying =>
      Some (mkState (pc s) (<[i := Finished true]> (tasks s)) (errCh s)
                    (cancelled s) (S (progress s)) (consumed s))
  | Some (Finished _) | None => None
  end.

(** The moves of one call.  The context is cancelled by the calling
    goroutine at [rc.cancel()] and by nothing else: a cancellation that
    arrives while the call runs, from [Close] or from the parent context,
    is not among the moves; one that precedes the call is the flag [done]
    of the initial state. *)
Definition step (c : choice) (s : state) : option state :=
  match c with
  | Main => main_step s
  | Task i done_case => task_step i done_case s
  end.

Fixpoint run (sched : list choice) (s : state) : option state :=
  match sched with
  | [] => Some s
  | c :: rest =>
      match step c s with
      | Some s' => run rest s'
      | None => None
      end
  end.

(** The transition relation and the states a call can be in. *)
Definition steps (s s' : state) : Prop := ∃ c, step c s = Some s'.

Definition init (done : bool) : state := mkState Dispatching [] [] done 0 [].

Definition reachable (done : bool) (s : state) : Prop := rtc steps (init done) s.

(** The function with its prologue: [setSpeedLimit] first, then the
    dispatch and collection under the schedule [sched].  The result is
    the client, the rate-limit calls issued, and the state the schedule
    leads to ([None] when the schedule asks for a move that is not
    enabled). *)
Definition RestoreFiles (n : net) (rc : Client) (rpcs : list Z)
    (sched : list choice) : Client * list Z * option state :=
  match setSpeedLimit n rc rpcs with
  | (rc', rpcs', Some e) =>
      (rc', rpcs', Some (mkState (Returned (Some e)) [] [] (ctx_done rc) 0 []))
  | (rc', rpcs', None) =>
      match run sched (init (ctx_done rc')) with
      | Some s =>
          (mkClient (rateLimit rc') (hasSpeedLimited rc') (cancelled s),
           rpcs', Some s)
      | None => (rc', rpcs', None)
      end
  end.
End Run.

(** Termination measure of a call. *)
Definition phase_w (p : phase) : nat :=
  match p with
  | Importing => 3 | Selecting _ => 2 | Notifying => 1 | Finished _ => 0
  end.
Definition control_w (n : nat) (c : control) : nat :=
  match c with
  | Dispatching => n + 3
  | Collecting k => (n - k) + 2
  | Waiting _ => 1
  | Returned _ => 0
  end.
Definition measure (n : nat) (s : state) : nat :=
  control_w n (pc s) + sum_list_with phase_w (tasks s) +
  4 * (n - length (tasks s)).

(** A value in the channel or received is the result of the import of the
    file of its task. *)
Definition genuine (Import : File → option error) (files : list File)
    (m : nat * option error) : Prop :=
  ∃ f, files !! m.1 = Some f ∧ m.2 = Import f.

Definition is_nil (m : nat * option error) : Prop := m.2 = None.


(** *** Invariants of a call *)

(** The tasks that have a value among [ids] are those past their
    [select]. *)
Definition ids_of_sent (ids : list nat) (ts : list phase) : Prop :=
  ∀ j, j ∈ ids ↔ ∃ p, ts !! j = Some p ∧ sent_w p = 1%nat.

Section Invariants.
Variable Import : File → option error.
Variable files : list File.

Definition inv_shape (s : state) : Prop :=
  (length (tasks s) ≤ length files)%nat ∧
  (pc s ≠ Dispatching → length (tasks s) = length files).

Definition inv_count (s : state) : Prop :=
  (length (consumed s) + length (errCh s))%nat = sent (tasks s).

(** Every task that passed its [select] has exactly one value among the
    values received and in flight, and no other task has one. *)
Definition inv_ids (s : state) : Prop :=
  NoDup ((consumed s ++ errCh s).*1) ∧
  ids_of_sent ((consumed s ++ errCh s).*1) (tasks s).

Definition first_error (s : state) (e : error) : Prop :=
  ∃ pre i, consumed s = pre ++ [(i, Some e)] ∧ Forall is_nil pre.

Definition inv_control (s : state) : Prop :=
  match pc s with
  | Dispatching => consumed s = []
  | Collecting k =>
      length (consumed s) = k ∧ Forall is_nil (consumed s) ∧
      (k ≤ length files)%nat
  | Waiting e => cancelled s = true ∧ first_error s e
  | Returned (Some e) =>
      cancelled s = true ∧ busy (tasks s) = 0%nat ∧ first_error s e
  | Returned None =>
      length (consumed s) = length files ∧ Forall is_nil (consumed s)
  end.

Definition inv_results (s : state) : Prop :=
  (∀ i r, tasks s !! i = Some (Selecting r) →
          ∃ f, files !! i = Some f ∧ r = Import f) ∧
  (∀ m, m ∈ consumed s ++ errCh s → is_nil m ∨ genuine Import files m) ∧
  (cancelled s = false →
     (∀ m, m ∈ consumed s ++ errCh s → genuine Import files m) ∧
     (∀ i, tasks s !! i ≠ Some (Finished false))).

Definition inv_progress (s : state) : Prop :=
  progress s = delivered (tasks s).

(** What holds in addition when the context is live at entry. *)
Definition inv_live (s : state) : Prop :=
  (∀ m, m ∈ consumed s → genuine Import files m) ∧
  match pc s with
  | Dispatching | Collecting _ | Returned None => cancelled s = false
  | _ => True
  end.

Definition Inv (done : bool) (s : state) : Prop :=
  inv_shape s ∧ inv_count s ∧ inv_ids s ∧ inv_control s ∧
  inv_results s ∧ inv_progress s ∧ (done = false → inv_live s).
End Invariants.


(** Sample batch: the import of [bad.sst] fails, that of [good.sst]
    succeeds. *)
Definition ex_good : File := mkFile "good.sst".
Definition ex_bad : File := mkFile "bad.sst".
Definition ex_import (f : File) : option error :=
  if String.eqb (file_name f) "bad.sst" then Some "import failed" else None.

(** Both tasks run to their end before the caller collects anything. *)
Definition ex_sched_two : list choice :=
  [Main; Main; Task 0 false; Task 1 false; Task 0 false; Task 1 false;
   Task 0 false; Task 1 false; Main; Main; Main].

(** One file, the task takes the send case. *)
Definition ex_sched_send : list choice :=
  [Main; Task 0 false; Task 0 false; Task 0 false; Main; Main; Main].

(** One file, the task takes the cancellation case. *)
Definition ex_sched_done : list choice :=
  [Main; Task 0 true; Task 0 true; Main; Main; Main].

(** Two files whose imports succeed, collected to the end. *)
Definition ex_sched_ok : list choice := ex_sched_two ++ [Main].

(** The states the sample schedules end in. *)
Definition ex_final_two : state :=
  mkState (Returned (Some "import failed")) [Finished true; Finished true]
          [(1%nat, None)] true 2 [(0%nat, Some "import failed")].
Definition ex_final_send : state :=
  mkState (Returned (Some "import failed")) [Finished true] [] true 1
          [(0%nat, Some "import failed")].
Definition ex_final_done : state :=
  mkState (Returned None) [Finished false] [] true 0 [(0%nat, None)].
Definition ex_final_ok : state :=
  mkState (Returned None) [Finished true; Finished true] [] false 2
          [(0%nat, None); (1%nat, None)].

(** *** Several batches on one client *)

(** One later call of [RestoreFiles]: the cluster it meets, the batch, the
    schedule, and the rate limit if [SetRateLimit] is called before it. *)
Record call := mkCall {
  call_net : net;
  call_Import : File → option error;
  call_width : nat;
  call_files : list File;
  call_sched : list choice;
  call_rate : option Z
}.

Definition SetRateLimit (rc : Client) (rateLimit' : Z) : Client :=
  mkClient rateLimit' (hasSpeedLimited rc) (ctx_done rc).

Fixpoint restore_calls (calls : list call) (rc : Client) (rpcs : list Z)
    : Client * list Z :=
  match calls with
  | [] => (rc, rpcs)
  | c :: rest =>
      let rc0 := match call_rate c with
                 | Some r => SetRateLimit rc r
                 | None => rc
                 end in
      let res := RestoreFiles (call_Import c) (call_width c) (call_files c)
                              (call_net c) rc0 rpcs (call_sched c) in
      restore_calls rest res.1.1 res.1.2
  end.

(** Sample client with a rate limit of 128 and a live context. *)
Definition ex_client : Client := mkClient 128 false false.
Definition ex_all_up : net :=
  mkNet (inr ex_stores) (λ _, None) (λ _, None) (λ _, None) (λ _, None).

End Restore.

(** ** Validating checksums through a worker pool *)

Module Checksum.

(** [tipb.ChecksumResponse]. *)
Record ChecksumResponse := mkResponse {
  Checksum : Z;
  resp_TotalKvs : Z;
  resp_TotalBytes : Z
}.

(** The message of [errors.New] in the comparison branch.  The table is
    named in the log entry only, not in the error. *)
Definition checksum_failed : error := "failed to validate checksum".

(** The collaborators of one task. *)
Record cluster := mkCluster {
  (** [rc.GetTS(ctx)], as answered to the task of table [i] *)
  GetTS : nat → error + Z;
  (** [checksum.NewExecutorBuilder(newTable, startTS).SetOldTable(table).Build()] *)
  Build : TableInfo → Table → Z → option error;
  (** [exe.Execute(ctx, kvClient, ...)] *)
  Execute : TableInfo → Z → error + ChecksumResponse
}.

(** The body of the function given to [workers.Apply], up to the value it
    sends on [errCh]; [None] when it reaches [updateCh <- struct{}{}]. *)
Definition validate (cl : cluster) (i : nat) (table : Table)
    (newTable : TableInfo) : option error :=
  match GetTS cl i with
  | inl e => Some e
  | inr startTS =>
      match Build cl newTable table startTS with
      | Some e => Some e
      | None =>
          match Execute cl newTable startTS with
          | inl e => Some e
          | inr checksumResp =>
              if negb (Checksum checksumResp =? Crc64Xor table) ||
                 negb (resp_TotalKvs checksumResp =? TotalKvs table) ||
                 negb (resp_TotalBytes checksumResp =? TotalBytes table)
              then Some checksum_failed
              else None
          end
      end
  end.

(** Where one task stands: still computing, blocked in a send on the
    unbuffered [errCh], or past [wg.Done]. *)
Inductive phase :=
  | Running
  | Sending (e : error)
  | Finished.

(** [ret] is the value the caller returned, once it has; [closed] tells
    that the dispatching goroutine went through [wg.Wait] and closed
    [errCh]; [panicked] that it indexed [newTables] out of range. *)
Record state := mkState {
  ret : option (option error);
  tasks : list phase;
  closed : bool;
  panicked : bool;
  progress : nat
}.

(** A scheduler choice: the dispatching goroutine submits the next table or
    closes the channel, a task computes, the caller receives from a blocked
    task or from the closed channel. *)
Inductive choice :=
  | Dispatch
  | Close
  | Work (i : nat)
  | Recv (i : nat)
  | RecvClosed.

Definition busy_w (p : phase) : nat :=
  match p with Finished => 0 | _ => 1 end.
Definition busy (ts : list phase) : nat := sum_list_with busy_w ts.

Section Run.
Variable cl : cluster.
(** Modelled from the spec: [utils.WorkerPool] is not among the given
    sources; [Apply] blocks while all [width] workers are in use.  The
    source creates the pool with [defaultChecksumConcurrency] workers. *)
Variable width : nat.
Variable tables : list Table.
Variable newTables : list TableInfo.

(** What the task of table [i] produces. *)
Definition result (i : nat) : option (option error) :=
  match tables !! i, newTables !! i with
  | Some table, Some newTable => Some (validate cl i table newTable)
  | _, _ => None
  end.

Definition step (c : choice) (s : state) : option state :=
  if panicked s then None else
  match c with
  | Dispatch =>
      match tables !! length (tasks s) with
      | None => None
      | Some _ =>
          match newTables !! length (tasks s) with
          | None =>
              Some (mkState (ret s) (tasks s) (closed s) true (progress s))
          | Some _ =>
              if decide (busy (tasks s) < width)%nat
              then Some (mkState (ret s) (tasks s ++ [Running]) (closed s)
                                 false (progress s))
              else None
          end
      end
  | Close =>
      if decide (length (tasks s) = length tables ∧ busy (tasks s) = 0%nat
                 ∧ closed s = false)
      then Some (mkState (ret s) (tasks s) true false (progress s))
      else None
  | Work i =>
      match tasks s !! i, result i with
      | Some Running, Some None =>
          Some (mkState (ret s) (<[i := Finished]> (tasks s)) (closed s)
                        false (S (progress s)))
      | Some Running, Some (Some e) =>
          Some (mkState (ret s) (<[i := Sending e]> (tasks s)) (closed s)
                        false (progress s))
      | _, _ => None
      end
  | Recv i =>
      match ret s, tasks s !! i with
      | None, Some (Sending e) =>
          Some (mkState (Some (Some e)) (<[i := Finished]> (tasks s))
                        (closed s) false (progress s))
      | _, _ => None
      end
  | RecvClosed =>
      match ret s with
      | None =>
          if closed s
          then Some (mkState (Some None) (tasks s) true false (progress s))
          else None
      | Some _ => None
      end
  end.

Fixpoint run (sched : list choice) (s : state) : option state :=
  match sched with
  | [] => Some s
  | c :: rest =>
      match step c s with
      | Some s' => run rest s'
      | None => None
      end
  end.

Definition steps (s s' : state) : Prop := ∃ c, step c s = Some s'.

Definition init : state := mkState None [] false false 0.

Definition reachable (s : state) : Prop := rtc steps init s.

(** *** Invariants of a call *)

Definition inv_shape (s : state) : Prop :=
  (length (tasks s) ≤ length tables)%nat ∧
  (closed s = true →
   length (tasks s) = length tables ∧ busy (tasks s) = 0%nat).

Definition inv_tasks (s : state) : Prop :=
  (∀ i e, tasks s !! i = Some (Sending e) → result i = Some (Some e)) ∧
  (ret s = None → ∀ i, tasks s !! i = Some Finished → result i = Some None).

Definition inv_ret (s : state) : Prop :=
  match ret s with
  | None => progress s = (length (tasks s) - busy (tasks s))%nat
  | Some None =>
      closed s = true ∧ progress s = length tables ∧
      ∀ i p, tasks s !! i = Some p → p = Finished ∧ result i = Some None
  | Some (Some e) =>
      ∃ i, tasks s !! i = Some Finished ∧ result i = Some (Some e)
  end.

Definition Inv (s : state) : Prop :=
  inv_shape s ∧ inv_tasks s ∧ inv_ret s ∧
  ((length tables ≤ length newTables)%nat → panicked s = false).
End Run.

Definition phase_w (p : phase) : nat :=
  match p with Running => 2 | Sending _ => 1 | Finished => 0 end.
Definition measure (n : nat) (s : state) : nat :=
  match ret s with Some _ => 0 | None => 1 end + (if closed s then 0 else 1) +
  (if panicked s then 0 else 1) +
  sum_list_with phase_w (tasks s) + 3 * (n - length (tasks s)).

(** The example of the specification: [T1] and [T2] as recorded at
    snapshot time, and a cluster that computes a different digest for
    [T2]. *)
Definition ex_T1 : Table := mkTable (mkDBInfo 1 "test") (mkTableInfo 10 "T1" 0) 10 5 100.
Definition ex_T2 : Table := mkTable (mkDBInfo 1 "test") (mkTableInfo 11 "T2" 0) 20 7 140.
Definition ex_new_T1 : TableInfo := mkTableInfo 50 "T1" 0.
Definition ex_new_T2 : TableInfo := mkTableInfo 51 "T2" 0.
Definition ex_cluster : cluster :=
  mkCluster (λ _, inr 400)
            (λ _ _ _, None)
            (λ newTable _,
               if tbl_ID newTable =? 50 then inr (mkResponse 10 5 100)
               else inr (mkResponse 21 7 140)).

(** The task of [T2] fails and the caller receives its error while the
    task of [T1] is still computing. *)
Definition ex_sched_early : list choice := [Dispatch; Dispatch; Work 1; Recv 1].
Definition ex_after_early : state :=
  mkState (Some (Some checksum_failed)) [Running; Finished] false false 0.

(** The task of [T1] completes first. *)
Definition ex_sched_late : list choice :=
  [Dispatch; Dispatch; Work 0; Work 1; Recv 1].
Definition ex_after_late : state :=
  mkState (Some (Some checksum_failed)) [Finished; Finished] false false 1.

End Checksum.

(** ** Replaying schema changes *)

Module Replay.
Import History Schema.

(** [sort.Slice] with the comparison [ver i < ver j]: ascending schema
    version.  As for the descending sort of the filter, each job is inserted
    in front of the first job whose version is not smaller. *)
Fixpoint insert_asc (j : Job) (l : list Job) : list Job :=
  match l with
  | [] => [j]
  | k :: l' =>
      if ver k <? ver j then k :: insert_asc j l' else j :: k :: l'
  end.

Definition sort_asc (l : list Job) : list Job := foldr insert_asc [] l.

Definition asc : list Job → Prop := StronglySorted (λ a b, ver a ≤ ver b).

(** The statements [ExecDDL] has to execute for a job: the switch to the
    schema of the job when the job carries a [TableInfo], then the query. *)
Definition useSQL (ddlJob : Job) : string :=
  "use " +:+ SchemaName ddlJob +:+ ";".

Definition statements (ddlJob : Job) : list string :=
  match hist_TableInfo (BinlogInfo ddlJob) with
  | Some _ => [useSQL ddlJob; Query ddlJob]
  | None => [Query ddlJob]
  end.

Section Session.
Context {session : Type}.
Variable Execute : session → string → session * option error.

(** [DB.ExecDDL]. *)
Definition ExecDDL (ddlJob : Job) (st : session * list string)
    : (session * list string) * option error :=
  match hist_TableInfo (BinlogInfo ddlJob) with
  | Some _ =>
      match exec Execute st (useSQL ddlJob) with
      | (st1, Some e) => (st1, Some e)
      | (st1, None) => exec Execute st1 (Query ddlJob)
      end
  | None => exec Execute st (Query ddlJob)
  end.

(** [DB.CreateDatabase]; [showCreate] is what
    [executor.ConstructResultOfShowCreateDatabase] produced. *)
Definition CreateDatabase (showCreate : error + string)
    (st : session * list string) : (session * list string) * option error :=
  match showCreate with
  | inl e => (st, Some e)
  | inr createSQL => exec Execute st createSQL
  end.

(** The loop of [Client.ExecDDLs] over the sorted jobs. *)
Fixpoint exec_jobs (ddlJobs : list Job) (st : session * list string)
    : (session * list string) * option error :=
  match ddlJobs with
  | [] => (st, None)
  | job :: rest =>
      match ExecDDL job st with
      | (st1, Some e) => (st1, Some e)
      | (st1, None) => exec_jobs rest st1
      end
  end.

(** [Client.ExecDDLs]. *)
Definition ExecDDLs (ddlJobs : list Job) (st : session * list string)
    : (session * list string) * option error :=
  exec_jobs (sort_asc ddlJobs) st.
End Session.

(** Sample engine that refuses one statement. *)
Definition ex_refusing (bad : string) (se : unit) (sql : string)
    : unit * option error :=
  (se, if String.eqb sql bad then Some "statement failed" else None).

Definition ex_jobs : list Job :=
  [mkJob 1 10 "a" "alter table t add column e int"
         (mkHistoryInfo 3 None (Some (mkTableInfo 10 "t" 0)));
   mkJob 1 0 "a" "create database a"
         (mkHistoryInfo 1 (Some (mkDBInfo 1 "a")) None);
   mkJob 1 10 "a" "create table t (c int)"
         (mkHistoryInfo 2 None (Some (mkTableInfo 10 "t" 0)))].

End Replay.

(** ** Creating the tables of a restore *)

Module Tables.
Import Schema.

Section CreateTables.
Context {session : Type}.
(** [import_sstpb.RewriteRule]; its fields are not read here. *)
Context {rule : Type}.
Variable Execute : session → string → session * option error.
Variable escapeTableName : string → string.
(** [executor.ConstructResultOfShowCreateTable] for a table. *)
Variable ShowCreate : Table → error + string.
(** [rc.GetTableSchema(dom, dbName, tableName)]: the schema the engine
    holds for that name after the statements executed so far. *)
Variable GetTableSchema : session → string → string → error + TableInfo.
(** [GetRewriteRules(newTable, oldTable, newTS)] of the same package is
    not among the given sources; it is taken as given.  It returns the
    table rules and the data rules of one table. *)
Variable GetRewriteRules : TableInfo → TableInfo → Z → list rule * list rule.

(** The loop of [Client.CreateTables]; [acc] holds [rewriteRules.Table],
    [rewriteRules.Data] and [newTables] as accumulated so far. *)
Fixpoint create_tables (tables : list Table) (newTS : Z)
    (acc : list rule * list rule * list TableInfo)
    (st : session * list string)
    : (session * list string) * (error + list rule * list rule * list TableInfo) :=
  match tables with
  | [] => (st, inr acc)
  | table :: rest =>
      match CreateTable Execute escapeTableName (ShowCreate table) table st with
      | (st1, Some e) => (st1, inl e)
      | (st1, None) =>
          match GetTableSchema st1.1 (db_Name (Db table))
                               (tbl_Name (Info table)) with
          | inl e => (st1, inl e)
          | inr newTableInfo =>
              let rules := GetRewriteRules newTableInfo (Info table) newTS in
              create_tables rest newTS
                (acc.1.1 ++ rules.1, acc.1.2 ++ rules.2,
                 acc.2 ++ [newTableInfo]) st1
          end
      end
  end.

Definition CreateTables (tables : list Table) (newTS : Z)
    (st : session * list string)
    : (session * list string) * (error + list rule * list rule * list TableInfo) :=
  create_tables tables newTS ([], [], []) st.
End CreateTables.

(** Sample collaborators: the engine of the [CreateTable] example, a schema
    lookup that gives every table the identifier 100 plus its old one, and
    one table rule per table mapping the old identifier to the new one. *)
Definition ex_show (table : Table) : error + string :=
  inr ("CREATE TABLE `" +:+ tbl_Name (Info table) +:+ "` (`a` int(11))").
Definition ex_schema (tables : list Table) (se : list string)
    (dbName tableName : string) : error + TableInfo :=
  match List.find (λ t, String.eqb (tbl_Name (Info t)) tableName) tables with
  | Some t => inr (mkTableInfo (100 + tbl_ID (Info t)) tableName (AutoIncID (Info t)))
  | None => inl "table not found"
  end.
(** The same lookup over the sample engine, whose session lists the tables
    that exist: a table that was not created yet is not found. *)
Definition ex_schema_live (tables : list Table) (se : list string)
    (dbName tableName : string) : error + TableInfo :=
  if bool_decide (ex_escape tableName ∈ se)
  then ex_schema tables se dbName tableName
  else inl "table does not exist".
Definition ex_rules (newTable oldTable : TableInfo) (newTS : Z)
    : list (Z * Z) * list (Z * Z) :=
  ([(tbl_ID oldTable, tbl_ID newTable)], []).

End Tables.

(** ** More on the broadcasts *)

Module Limits.
Import Broadcast.

(** A node accepts the rate limit. *)
Definition accepts (n : net) (store : Store) : bool :=
  bool_decide (setDownloadSpeedLimit n (store_id store) = None).

End Limits.

(** ** Histories with equal schema versions *)

Module Ties.
Import History.






End Ties.

(** ** A table that was truncated and then renamed *)

Module Lineage.
Import History.

(** The table is created as [t] with identifier 10, truncated, which gives
    it the identifier 11, and renamed to [w].  A truncate job carries the
    old identifier in [TableID] and the new one in its [TableInfo]; a rename
    job carries the new name in its [TableInfo]. *)
Definition ex_create : Job :=
  mkJob 1 10 "a" "create table t (c int)"
        (mkHistoryInfo 1 None (Some (mkTableInfo 10 "t" 0))).
Definition ex_truncate : Job :=
  mkJob 1 10 "a" "truncate table t"
        (mkHistoryInfo 2 None (Some (mkTableInfo 11 "t" 0))).
Definition ex_rename : Job :=
  mkJob 1 11 "a" "rename table t to w"
        (mkHistoryInfo 3 None (Some (mkTableInfo 11 "w" 0))).
Definition ex_truncate_rename : list Job := [ex_create; ex_truncate; ex_rename].

(** The table in the restore target after the three jobs, after the first
    two, and after a rename that was not preceded by a truncate. *)
Definition ex_w11 : Table := mkTable ex_db (mkTableInfo 11 "w" 0) 0 0 0.
Definition ex_t11 : Table := mkTable ex_db (mkTableInfo 11 "t" 0) 0 0 0.
Definition ex_rename_only : Job :=
  mkJob 1 10 "a" "rename table t to w"
        (mkHistoryInfo 2 None (Some (mkTableInfo 10 "w" 0))).
Definition ex_w10 : Table := mkTable ex_db (mkTableInfo 10 "w" 0) 0 0 0.

End Lineage.
(** * Properties *)

(** ** Sums over a list of tasks *)

Lemma sum_list_with_insert {A} (f : A → nat) (l : list A) i x y :
  l !! i = Some x →
  (sum_list_with f (<[i:=y]> l) + f x = sum_list_with f l + f y)%nat.
Proof.
  revert i. induction l as [|a l IH]; intros [|i] Hl; simplify_eq/=; [lia|].
  specialize (IH _ Hl). lia.
Qed.

Lemma sum_list_with_zero_lookup {A} (f : A → nat) (l : list A) i x :
  sum_list_with f l = 0%nat → l !! i = Some x → f x = 0%nat.
Proof.
  revert i. induction l as [|a l IH]; intros [|i] Hs Hl; simplify_eq/=; [lia|].
  eapply IH; [lia|done].
Qed.

Lemma sum_list_with_pos_lookup {A} (f : A → nat) (l : list A) :
  (0 < sum_list_with f l)%nat → ∃ i x, l !! i = Some x ∧ (0 < f x)%nat.
Proof.
  induction l as [|a l IH]; simpl; [lia|]. intros Hs.
  destruct (decide (0 < f a)%nat).
  - by exists 0%nat, a.
  - destruct IH as (i & x & ? & ?); [lia|]. by exists (S i), x.
Qed.


(** ** The schema-history filter *)

Module HistoryFacts.
Import History.

Section ScanFacts.
Variable selects : alias → Job → bool.
Variable extend : alias → Job → alias.

Local Abbreviation scan := (scan selects extend).
Local Abbreviation alias_after := (alias_after selects extend).
Local Abbreviation selected := (selected selects extend).
Local Abbreviation untouched := (untouched selects extend).

Lemma scan_cons a out job rest :
  scan a out (job :: rest) =
  if selects a job then scan (extend a job) (out ++ [job]) rest
  else scan a out rest.
Proof. unfold History.scan. simpl. unfold visit at 2. simpl. by destruct (selects a job). Qed.

Lemma scan_out a out jobs :
  (scan a out jobs).2 = out ++ selected a jobs.
Proof.
  revert a out. induction jobs as [|job rest IH]; intros a out.
  - simpl. by rewrite app_nil_r.
  - rewrite scan_cons. simpl. destruct (selects a job).
    + rewrite IH. by rewrite <- app_assoc.
    + apply IH.
Qed.

Lemma scan_alias a out jobs :
  (scan a out jobs).1 = alias_after a jobs.
Proof.
  unfold History.alias_after. generalize (@nil Job).
  revert a out. induction jobs as [|job rest IH]; intros a out out'.
  - done.
  - rewrite !scan_cons. destruct (selects a job); apply IH.
Qed.

Lemma alias_after_cons a job rest :
  alias_after a (job :: rest) =
  alias_after (if selects a job then extend a job else a) rest.
Proof.
  unfold History.alias_after. rewrite scan_cons.
  destruct (selects a job); [|done]. by rewrite !scan_alias.
Qed.

Lemma alias_after_app a l1 l2 :
  alias_after a (l1 ++ l2) = alias_after (alias_after a l1) l2.
Proof.
  revert a. induction l1 as [|job rest IH]; intros a; [done|].
  simpl. rewrite !alias_after_cons. apply IH.
Qed.

Lemma selected_app a l1 l2 :
  selected a (l1 ++ l2) = selected a l1 ++ selected (alias_after a l1) l2.
Proof.
  revert a. induction l1 as [|job rest IH]; intros a; [done|].
  simpl. rewrite alias_after_cons. destruct (selects a job); simpl; by rewrite IH.
Qed.

Lemma selected_snoc a pre job :
  selected a (pre ++ [job]) =
  selected a pre ++ (if selects (alias_after a pre) job then [job] else []).
Proof. rewrite selected_app. simpl. by destruct (selects _ job). Qed.

Lemma alias_after_snoc a pre job :
  alias_after a (pre ++ [job]) =
  if selects (alias_after a pre) job then extend (alias_after a pre) job
  else alias_after a pre.
Proof. rewrite alias_after_app. by rewrite alias_after_cons. Qed.

(** Walking a history from which the jobs rejected by [keep] were removed
    selects the same jobs, provided none of the removed jobs would have
    been selected. *)
Lemma selected_filter keep a jobs :
  untouched keep a jobs = true →
  selected a (List.filter keep jobs) = selected a jobs.
Proof.
  revert a. induction jobs as [|job rest IH]; intros a Hu; [done|].
  simpl in *. destruct (selects a job) eqn:Hs.
  - apply andb_prop in Hu as [Hk Hu]. rewrite Hk. simpl. rewrite Hs.
    f_equal. by apply IH.
  - destruct (keep job); simpl; rewrite ?Hs; by apply IH.
Qed.

Lemma selected_keep keep a jobs :
  untouched keep a jobs = true →
  List.filter keep (selected a jobs) = selected a jobs.
Proof.
  revert a. induction jobs as [|job rest IH]; intros a Hu; [done|].
  simpl in *. destruct (selects a job) eqn:Hs.
  - apply andb_prop in Hu as [Hk Hu]. simpl. rewrite Hk.
    f_equal. by apply IH.
  - by apply IH.
Qed.

Lemma untouched_split keep a jobs :
  untouched keep a jobs = true ↔
  ∀ pre job post, jobs = pre ++ job :: post →
    selects (alias_after a pre) job = true → keep job = true.
Proof.
  revert a. induction jobs as [|job rest IH]; intros a; simpl.
  - split; [|done]. intros _ [|??] ?? ?; done.
  - split.
    + intros Hu pre j post Heq Hsel. destruct pre as [|p pre]; simplify_eq/=.
      * unfold History.alias_after in Hsel. simpl in Hsel. rewrite Hsel in Hu.
        by apply andb_prop in Hu as [? _].
      * rewrite alias_after_cons in Hsel. destruct (selects a p).
        -- apply andb_prop in Hu as [_ Hu]. eapply IH; eauto.
        -- eapply IH; eauto.
    + intros Hall. destruct (selects a job) eqn:Hs.
      * apply andb_true_intro. split.
        -- by apply (Hall [] job rest).
        -- apply IH. intros pre j post -> Hsel.
           apply (Hall (job :: pre) j post); [done|].
           by rewrite alias_after_cons, Hs.
      * apply IH. intros pre j post -> Hsel.
        apply (Hall (job :: pre) j post); [done|].
        by rewrite alias_after_cons, Hs.
Qed.
End ScanFacts.


(** *** The sort *)

Lemma insert_desc_perm j l : insert_desc j l ≡ₚ j :: l.
Proof.
  induction l as [|k l IH]; simpl; [done|].
  destruct (ver j <? ver k); [|done].
  rewrite IH. apply Permutation_swap.
Qed.

Lemma sort_desc_perm l : sort_desc l ≡ₚ l.
Proof.
  induction l as [|j l IH]; simpl; [done|].
  unfold sort_desc in *. simpl. rewrite insert_desc_perm. by f_equiv.
Qed.

Lemma insert_desc_sorted j l : desc l → desc (insert_desc j l).
Proof.
  unfold desc. induction 1 as [|k l Hl IH Hk]; simpl.
  - repeat constructor.
  - destruct (Z.ltb_spec (ver j) (ver k)).
    + constructor; [done|].
      rewrite Forall_forall. intros x Hx.
      rewrite insert_desc_perm in Hx.
      apply elem_of_cons in Hx as [->|Hx]; [lia|].
      rewrite Forall_forall in Hk. by apply Hk.
    + constructor; [by constructor|].
      constructor; [done|].
      eapply Forall_impl; [exact Hk|]. simpl. intros. lia.
Qed.

Lemma sort_desc_sorted l : desc (sort_desc l).
Proof.
  induction l as [|j l IH]; [constructor|].
  apply insert_desc_sorted, IH.
Qed.

Lemma insert_desc_head j l :
  Forall (λ k, ver k ≤ ver j) l → insert_desc j l = j :: l.
Proof.
  destruct l as [|k l]; [done|]. intros Hall. simpl.
  apply Forall_cons in Hall as [Hk _].
  destruct (Z.ltb_spec (ver j) (ver k)); [lia|done].
Qed.

Lemma filter_insert_desc keep j l :
  desc l →
  List.filter keep (insert_desc j l) =
  if keep j then insert_desc j (List.filter keep l) else List.filter keep l.
Proof.
  unfold desc. induction 1 as [|k l Hl IH Hk]; simpl.
  - by destruct (keep j).
  - destruct (Z.ltb_spec (ver j) (ver k)) as [Hlt|Hge]; simpl.
    + rewrite IH. destruct (keep k) eqn:Ek, (keep j) eqn:Ej; simpl; try done.
      destruct (Z.ltb_spec (ver j) (ver k)); [done|lia].
    + destruct (keep j) eqn:Ej; [|done].
      symmetry. apply insert_desc_head.
      assert (Forall (λ x, ver x ≤ ver j) (k :: l)) as Hall.
      { constructor; [done|]. eapply Forall_impl; [exact Hk|]. simpl. intros; lia. }
      rewrite Forall_forall in Hall. rewrite Forall_forall. intros x Hx.
      apply Hall. apply list_elem_of_In in Hx. apply list_elem_of_In.
      change (In x (List.filter keep (k :: l))) in Hx.
      by apply filter_In in Hx as [? _].
Qed.

(** Sorting commutes with removing jobs: the sort is stable. *)
Lemma sort_desc_filter keep l :
  List.filter keep (sort_desc l) = sort_desc (List.filter keep l).
Proof.
  induction l as [|j l IH]; [done|].
  change (sort_desc (j :: l)) with (insert_desc j (sort_desc l)).
  rewrite filter_insert_desc by apply sort_desc_sorted.
  simpl. destruct (keep j); [|done].
  change (sort_desc (j :: List.filter keep l))
    with (insert_desc j (sort_desc (List.filter keep l))).
  by rewrite IH.
Qed.

(** With pairwise distinct versions there is one descending arrangement of
    a history, so any sorting routine returns [sort_desc]. *)
Lemma desc_perm_unique l1 l2 :
  NoDup (ver <$> l1) → desc l1 → desc l2 → l1 ≡ₚ l2 → l1 = l2.
Proof.
  revert l2. induction l1 as [|a l1 IH]; intros l2 Hnd H1 H2 Hp.
  - by apply Permutation_nil_l in Hp.
  - destruct l2 as [|b l2]; [by apply Permutation_nil_r in Hp|].
    apply NoDup_cons in Hnd as [Ha Hnd].
    apply StronglySorted_inv in H1 as [H1 Ha1].
    apply StronglySorted_inv in H2 as [H2 Hb2].
    rewrite Forall_forall in Ha1, Hb2.
    assert (a = b) as ->.
    { assert (a ∈ b :: l2) as Hab by (rewrite <- Hp; left).
      assert (b ∈ a :: l1) as Hba by (rewrite Hp; left).
      apply elem_of_cons in Hab as [?|Hab]; [done|].
      apply elem_of_cons in Hba as [?|Hba]; [done|].
      pose proof (Hb2 _ Hab) as Hle1. pose proof (Ha1 _ Hba) as Hle2.
      simpl in Hle1, Hle2.
      exfalso. apply Ha. assert (ver a = ver b) as -> by lia.
      by apply list_elem_of_fmap_2. }
    f_equal. apply IH; try done. by apply Permutation_cons_inv in Hp.
Qed.

Lemma sort_desc_unique l l' :
  NoDup (ver <$> l) → desc l' → l' ≡ₚ l → l' = sort_desc l.
Proof.
  intros Hnd Hs Hp. apply desc_perm_unique; try done.
  - by rewrite Hp.
  - apply sort_desc_sorted.
  - by rewrite sort_desc_perm.
Qed.


(** *** The whole filter *)

Lemma foldl_scan {X} selects extend (seed : X → alias) sorted out xs :
  foldl (λ out x, (scan selects extend (seed x) out sorted).2) out xs =
  out ++ flat_map (λ x, selected selects extend (seed x) sorted) xs.
Proof.
  revert out. induction xs as [|x xs IH]; intros out; simpl.
  - by rewrite app_nil_r.
  - rewrite IH, scan_out. by rewrite <- app_assoc.
Qed.

Lemma FilterDDLJobs_selected allDDLJobs tables :
  FilterDDLJobs allDDLJobs tables =
  flat_map (λ db, selected db_selects db_extend (db_seed db) (sort_desc allDDLJobs))
           (getDatabases tables) ++
  flat_map (λ t, selected tbl_selects tbl_extend (tbl_seed t) (sort_desc allDDLJobs))
           tables.
Proof. unfold FilterDDLJobs, FilterDDLJobs_with. by rewrite !foldl_scan. Qed.

(** On a history with pairwise distinct versions the sorting routine does
    not matter. *)
Lemma FilterDDLJobs_with_canonical sort allDDLJobs tables :
  sorts_desc sort → NoDup (ver <$> allDDLJobs) →
  FilterDDLJobs_with sort allDDLJobs tables = FilterDDLJobs allDDLJobs tables.
Proof.
  intros Hsort Hnd. unfold FilterDDLJobs, FilterDDLJobs_with.
  destruct (Hsort allDDLJobs) as [Hd Hp].
  by rewrite (sort_desc_unique allDDLJobs (sort allDDLJobs)).
Qed.

Lemma NoDup_fmap_filter {A B} (f : A → B) (keep : A → bool) (l : list A) :
  NoDup (f <$> l) → NoDup (f <$> List.filter keep l).
Proof.
  induction l as [|a l IH]; [done|].
  rewrite fmap_cons. intros [Ha Hl]%NoDup_cons.
  cbn [List.filter]. destruct (keep a); [|by apply IH].
  rewrite fmap_cons. apply NoDup_cons. split; [|by apply IH].
  intros (x & Hx & Hin)%list_elem_of_fmap. apply Ha.
  apply list_elem_of_fmap. exists x. split; [done|].
  apply list_elem_of_In in Hin. apply list_elem_of_In.
  by apply filter_In in Hin as [? _].
Qed.

Lemma db_selects_iff a job :
  db_selects a job = true ↔
  ∃ di, hist_DBInfo (BinlogInfo job) = Some di ∧
        (SchemaID job ∈ ids a ∨ db_Name di ∈ names a).
Proof.
  unfold db_selects. destruct (hist_DBInfo (BinlogInfo job)) as [di|].
  - rewrite orb_true_iff, !bool_decide_eq_true. naive_solver.
  - naive_solver.
Qed.

Lemma tbl_selects_iff a job :
  tbl_selects a job = true ↔
  ∃ ti, hist_TableInfo (BinlogInfo job) = Some ti ∧
        (TableID job ∈ ids a ∨ tbl_Name ti ∈ names a).
Proof.
  unfold tbl_selects. destruct (hist_TableInfo (BinlogInfo job)) as [ti|].
  - rewrite orb_true_iff, !bool_decide_eq_true. naive_solver.
  - naive_solver.
Qed.

Lemma db_alias_closure a jobs :
  ids (alias_after db_selects db_extend a jobs) =
    ids a ∪ list_to_set (flat_map db_job_ids (selected db_selects db_extend a jobs)) ∧
  names (alias_after db_selects db_extend a jobs) =
    names a ∪ list_to_set (flat_map db_job_names (selected db_selects db_extend a jobs)).
Proof.
  revert a. induction jobs as [|job rest IH]; intros a.
  - simpl. unfold alias_after. simpl. split; set_solver.
  - rewrite alias_after_cons. simpl. destruct (db_selects a job) eqn:Hs.
    + destruct (IH (db_extend a job)) as [-> ->].
      apply db_selects_iff in Hs as (di & Hdi & _).
      unfold db_extend, db_job_names, db_job_ids. simpl. rewrite Hdi. simpl.
      split; set_solver.
    + apply IH.
Qed.

Lemma tbl_alias_closure a jobs :
  ids (alias_after tbl_selects tbl_extend a jobs) =
    ids a ∪ list_to_set (flat_map tbl_job_ids (selected tbl_selects tbl_extend a jobs)) ∧
  names (alias_after tbl_selects tbl_extend a jobs) =
    names a ∪ list_to_set (flat_map tbl_job_names (selected tbl_selects tbl_extend a jobs)).
Proof.
  revert a. induction jobs as [|job rest IH]; intros a.
  - simpl. unfold alias_after. simpl. split; set_solver.
  - rewrite alias_after_cons. simpl. destruct (tbl_selects a job) eqn:Hs.
    + destruct (IH (tbl_extend a job)) as [-> ->].
      apply tbl_selects_iff in Hs as (ti & Hti & _).
      unfold tbl_extend, tbl_job_names, tbl_job_ids. simpl. rewrite Hti. simpl.
      split; set_solver.
    + apply IH.
Qed.

(** *** Selection and alias sets *)

(** How the walks select.  [FilterDDLJobs] walks the history in descending
    version order once per database of the tables and once per table.  A job
    is selected for a database exactly when it carries a [DBInfo] and its
    [SchemaID] or its [DBInfo] name is in the alias sets; for a table exactly
    when it carries a [TableInfo] and its [TableID] or its [TableInfo] name
    is in the alias sets.  The alias sets are the seed (identifier and name
    of the object) extended, for every selected job, by [SchemaID] and the
    [DBInfo] name (database), or by [TableID], the [TableInfo] identifier and
    the [TableInfo] name (table). *)
Lemma filter_alias_closure (allDDLJobs : list Job) (tables : list Table) :
  FilterDDLJobs allDDLJobs tables =
    flat_map (λ db, selected db_selects db_extend (db_seed db)
                      (sort_desc allDDLJobs)) (getDatabases tables) ++
    flat_map (λ t, selected tbl_selects tbl_extend (tbl_seed t)
                     (sort_desc allDDLJobs)) tables ∧
  desc (sort_desc allDDLJobs) ∧ sort_desc allDDLJobs ≡ₚ allDDLJobs ∧
  (∀ a pre job,
     selected db_selects db_extend a (pre ++ [job]) =
     selected db_selects db_extend a pre ++
     (if db_selects (alias_after db_selects db_extend a pre) job
      then [job] else [])) ∧
  (∀ a pre job,
     selected tbl_selects tbl_extend a (pre ++ [job]) =
     selected tbl_selects tbl_extend a pre ++
     (if tbl_selects (alias_after tbl_selects tbl_extend a pre) job
      then [job] else [])) ∧
  (∀ a job,
     db_selects a job = true ↔
     ∃ di, hist_DBInfo (BinlogInfo job) = Some di ∧
           (SchemaID job ∈ ids a ∨ db_Name di ∈ names a)) ∧
  (∀ a job,
     tbl_selects a job = true ↔
     ∃ ti, hist_TableInfo (BinlogInfo job) = Some ti ∧
           (TableID job ∈ ids a ∨ tbl_Name ti ∈ names a)) ∧
  (∀ a jobs,
     ids (alias_after db_selects db_extend a jobs) =
       ids a ∪ list_to_set
                 (flat_map db_job_ids (selected db_selects db_extend a jobs)) ∧
     names (alias_after db_selects db_extend a jobs) =
       names a ∪ list_to_set
                   (flat_map db_job_names (selected db_selects db_extend a jobs))) ∧
  (∀ a jobs,
     ids (alias_after tbl_selects tbl_extend a jobs) =
       ids a ∪ list_to_set
                 (flat_map tbl_job_ids (selected tbl_selects tbl_extend a jobs)) ∧
     names (alias_after tbl_selects tbl_extend a jobs) =
       names a ∪ list_to_set
                   (flat_map tbl_job_names (selected tbl_selects tbl_extend a jobs))).
Proof.
  split; [apply FilterDDLJobs_selected|].
  split; [apply sort_desc_sorted|].
  split; [apply sort_desc_perm|].
  split; [apply selected_snoc|].
  split; [apply selected_snoc|].
  split; [apply db_selects_iff|].
  split; [apply tbl_selects_iff|].
  split; [apply db_alias_closure|apply tbl_alias_closure].
Qed.

(** Two readings of the guards.  A job of database [a] that carries no
    [DBInfo] is not selected in the walk of the database; and selecting a
    database job adds its [SchemaID], the identifier of its [DBInfo] is not
    read. *)
Lemma filter_guards_example :
  (SchemaID ex_job_noinfo ∈ ids (db_seed ex_db) ∧
   FilterDDLJobs [ex_job_noinfo] [ex_table] = []) ∧
  (db_selects (db_seed ex_db) ex_job_newid = true ∧
   hist_DBInfo (BinlogInfo ex_job_newid) = Some (mkDBInfo 2 "a") ∧
   2 ∉ ids (db_extend (db_seed ex_db) ex_job_newid)).
Proof.
  repeat split; try (vm_compute; reflexivity); simpl; set_solver.
Qed.

(** The sequence of the comment in the source: walking down from the last
    version, all four jobs of the database are recovered, the drop and the
    first rename through the name [b] and the identifier 1 they add. *)
Lemma filter_follows_lineage :
  FilterDDLJobs ex_lineage [ex_lineage_table] = reverse ex_lineage.
Proof. vm_compute. reflexivity. Qed.

(** *** Growth of the history *)

Lemma filter_flat_map {X} keep (f : X → list Job) xs :
  List.filter keep (flat_map f xs) = flat_map (λ x, List.filter keep (f x)) xs.
Proof.
  induction xs as [|x xs IH]; [done|].
  simpl. by rewrite List.filter_app, IH.
Qed.

Lemma flat_map_ext_elem {X Y} (f g : X → list Y) xs :
  (∀ x, x ∈ xs → f x = g x) → flat_map f xs = flat_map g xs.
Proof.
  induction xs as [|x xs IH]; intros Hfg; [done|].
  simpl. rewrite Hfg by left. f_equal. apply IH. intros. apply Hfg. by right.
Qed.

Lemma forallb_elem {X} (f : X → bool) xs x :
  forallb f xs = true → x ∈ xs → f x = true.
Proof.
  intros Hall Hx. rewrite forallb_forall in Hall.
  apply Hall. by apply list_elem_of_In.
Qed.

(** Growth of the history under the stable arrangement [sort_desc].  Let
    [keep] mark the jobs of the smaller history inside the larger history
    [H'], so that the smaller history is [filter keep H'].  If no job
    outside the smaller history is ever selected, the jobs selected from
    [H'], restricted to the smaller history, are the jobs selected from the
    smaller history alone.  With pairwise distinct versions the same holds
    for any sorting routine.  Jobs of equal version are the subject of
    [TiesFacts] below. *)
Lemma filter_monotone_stable (keep : Job → bool) (H' : list Job)
    (tables : list Table) :
  irrelevant keep H' tables = true →
  List.filter keep (FilterDDLJobs H' tables) =
    FilterDDLJobs (List.filter keep H') tables ∧
  FilterDDLJobs H' tables = FilterDDLJobs (List.filter keep H') tables ∧
  (∀ sort, sorts_desc sort → NoDup (ver <$> H') →
     List.filter keep (FilterDDLJobs_with sort H' tables) =
       FilterDDLJobs_with sort (List.filter keep H') tables).
Proof.
  intros Hirr.
  assert (List.filter keep (FilterDDLJobs H' tables) =
            FilterDDLJobs (List.filter keep H') tables ∧
          FilterDDLJobs H' tables = FilterDDLJobs (List.filter keep H') tables)
    as [Hrestr Hsame]; [|split; [done|split; [done|]]]; last first.
  { intros sort Hsort Hnd.
    rewrite !FilterDDLJobs_with_canonical; try done.
    by apply NoDup_fmap_filter. }
  revert Hirr. unfold irrelevant. intros [Hdb Htbl]%andb_prop.
  rewrite !FilterDDLJobs_selected, List.filter_app, !filter_flat_map.
  rewrite <- !sort_desc_filter.
  split.
  - f_equal; apply flat_map_ext_elem; intros x Hx.
    + pose proof (forallb_elem _ _ _ Hdb Hx) as Hu. simpl in Hu.
      by rewrite selected_keep, selected_filter.
    + pose proof (forallb_elem _ _ _ Htbl Hx) as Hu. simpl in Hu.
      by rewrite selected_keep, selected_filter.
  - f_equal; apply flat_map_ext_elem; intros x Hx.
    + pose proof (forallb_elem _ _ _ Hdb Hx) as Hu. simpl in Hu.
      by rewrite selected_filter.
    + pose proof (forallb_elem _ _ _ Htbl Hx) as Hu. simpl in Hu.
      by rewrite selected_filter.
Qed.

(** [filter_monotone_stable] on the sample history, where the job of
    database [x] is the added one. *)
Lemma filter_monotone_stable_example :
  irrelevant ex_keep ex_history [ex_table] = true ∧
  List.filter ex_keep (FilterDDLJobs ex_history [ex_table]) =
    FilterDDLJobs (List.filter ex_keep ex_history) [ex_table].
Proof.
  split; [reflexivity|].
  destruct (filter_monotone_stable ex_keep ex_history [ex_table]) as [H _];
    [reflexivity|exact H].
Defined.

(** The hypothesis of [filter_monotone_stable], spelled out on positions of the
    sorted history. *)
Lemma irrelevant_spec keep H' tables :
  irrelevant keep H' tables = true ↔
  (∀ db pre job post, db ∈ getDatabases tables →
     sort_desc H' = pre ++ job :: post →
     db_selects (alias_after db_selects db_extend (db_seed db) pre) job = true →
     keep job = true) ∧
  (∀ t pre job post, t ∈ tables →
     sort_desc H' = pre ++ job :: post →
     tbl_selects (alias_after tbl_selects tbl_extend (tbl_seed t) pre) job = true →
     keep job = true).
Proof.
  unfold irrelevant. rewrite andb_true_iff, !forallb_forall.
  split.
  - intros [Hdb Htbl]. split.
    + intros db pre job post Hin. apply untouched_split, Hdb.
      by apply list_elem_of_In.
    + intros t pre job post Hin. apply untouched_split, Htbl.
      by apply list_elem_of_In.
  - intros [Hdb Htbl]. split.
    + intros db Hin. apply untouched_split. intros pre job post.
      apply Hdb. by apply list_elem_of_In.
    + intros t Hin. apply untouched_split. intros pre job post.
      apply Htbl. by apply list_elem_of_In.
Qed.

End HistoryFacts.

(** ** Histories with equal schema versions *)

Module TiesFacts.
Import History HistoryFacts Ties.

(** *** Selection sort is a correct descending sort *)








(** *** Growth of the history *)




End TiesFacts.

(** ** A table that was truncated and then renamed *)

Module LineageFacts.
Import History HistoryFacts Lineage.

(** C3 on the code.  The comment in [FilterDDLJobs] asks for all names and
    identifiers the table ever had.  For the table created as [t] with
    identifier 10, truncated (identifier 11) and renamed to [w], the walk
    from [w] and 11 selects the rename and nothing else: the truncate
    carries the identifier 10 and the name [t], and neither was added by
    the rename, whose [TableInfo] holds the new name only.  The truncate and
    the create are lost, and 10 and [t] never enter the alias sets.  A
    truncate alone and a rename alone are followed back to the create. *)
Theorem FilterDDLJobs_loses_lineage :
  FilterDDLJobs ex_truncate_rename [ex_w11] = [ex_rename] ∧
  (10 ∉ ids (alias_after tbl_selects tbl_extend (tbl_seed ex_w11)
               (sort_desc ex_truncate_rename))) ∧
  ("t" ∉ names (alias_after tbl_selects tbl_extend (tbl_seed ex_w11)
                  (sort_desc ex_truncate_rename))) ∧
  FilterDDLJobs [ex_create; ex_truncate] [ex_t11] = [ex_truncate; ex_create] ∧
  FilterDDLJobs [ex_create; ex_rename_only] [ex_w10] =
    [ex_rename_only; ex_create].
Proof.
  split; [vm_compute; reflexivity|].
  split; [|split; [|split; vm_compute; reflexivity]].
  - destruct (tbl_alias_closure (tbl_seed ex_w11) (sort_desc ex_truncate_rename))
      as [-> _].
    replace (selected tbl_selects tbl_extend (tbl_seed ex_w11)
               (sort_desc ex_truncate_rename)) with [ex_rename]
      by (vm_compute; reflexivity).
    simpl. set_solver.
  - destruct (tbl_alias_closure (tbl_seed ex_w11) (sort_desc ex_truncate_rename))
      as [_ ->].
    replace (selected tbl_selects tbl_extend (tbl_seed ex_w11)
               (sort_desc ex_truncate_rename)) with [ex_rename]
      by (vm_compute; reflexivity).
    simpl. set_solver.
Qed.

End LineageFacts.

(** ** Advancing the cluster clock *)

Module ClockFacts.
Import Clock.

Section Retry.
Variable pdResetTS : nat → string → option error.

Lemma reset_once_first addr rest s :
  i s = 0%nat →
  reset_once pdResetTS (addr :: rest) s =
  Return (mkClosure 0 (contacted s ++ [addr]),
          pdResetTS (length (contacted s)) addr).
Proof.
  intros Hi. unfold reset_once. rewrite Hi.
  by rewrite Nat.Div0.mod_0_l.
Qed.

(** Every attempt contacts the first endpoint: the counter stays 0. *)
Lemma WithRetry_first addr rest attempts last s :
  i s = 0%nat →
  ∃ k r, (k ≤ attempts)%nat ∧
    WithRetry attempts (reset_once pdResetTS (addr :: rest)) last s =
    Return (mkClosure 0 (contacted s ++ replicate k addr), r).
Proof.
  revert last s. induction attempts as [|n IH]; intros last s Hi.
  - exists 0%nat, last. split; [lia|]. simpl. rewrite app_nil_r.
    destruct s; simpl in *; by subst.
  - cbn [WithRetry]. rewrite reset_once_first by done.
    destruct (pdResetTS _ addr) as [e|].
    + destruct (IH (Some e) (mkClosure 0 (contacted s ++ [addr])) eq_refl)
        as (k & r & Hk & ->).
      exists (S k), r. split; [lia|]. simpl. by rewrite <- app_assoc.
    + exists 1%nat, None. split; [lia|]. done.
Qed.

Lemma ResetTS_first addr rest attempts :
  ∃ k r, (k ≤ attempts)%nat ∧
    ResetTS pdResetTS attempts (addr :: rest) =
    Return (mkClosure 0 (replicate k addr), r).
Proof. apply (WithRetry_first addr rest attempts None (mkClosure 0 [])). done. Qed.

(** When every request fails, the call ends with the last error once the
    attempts are used up. *)
Lemma WithRetry_exhausted addr rest attempts last s :
  i s = 0%nat →
  (∀ n a, is_Some (pdResetTS n a)) →
  is_Some last ∨ (0 < attempts)%nat →
  ∃ e, WithRetry attempts (reset_once pdResetTS (addr :: rest)) last s =
       Return (mkClosure 0 (contacted s ++ replicate attempts addr), Some e).
Proof.
  revert last s. induction attempts as [|n IH]; intros last s Hi Hfail Hlast.
  - destruct Hlast as [[e ->]|?]; [|lia]. exists e. simpl.
    rewrite app_nil_r. destruct s; simpl in *; by subst.
  - cbn [WithRetry]. rewrite reset_once_first by done.
    destruct (Hfail (length (contacted s)) addr) as [e ->].
    destruct (IH (Some e) (mkClosure 0 (contacted s ++ [addr])) eq_refl Hfail)
      as [e' ->]; [by left; eexists|].
    exists e'. simpl. by rewrite <- app_assoc.
Qed.
End Retry.

(** C4 on the code: with two endpoints and every request refused, the three
    attempts of the run all go to the first endpoint, where a round robin
    would alternate; the exhausted policy ends in the last error. *)
Lemma ResetTS_repeats_first_endpoint :
  ResetTS ex_refuse 3 ex_addrs =
    Return (mkClosure 0 ["pd-0:2379"; "pd-0:2379"; "pd-0:2379"],
            Some "connection refused") ∧
  round_robin ex_addrs 3 = ["pd-0:2379"; "pd-1:2379"; "pd-0:2379"].
Proof. split; reflexivity. Qed.

End ClockFacts.

(** ** Broadcasts to the storage nodes *)

Module BroadcastFacts.
Import Broadcast.

(** The cluster after the mode was applied to a list of nodes in order. *)
Lemma switch_stores_answering n mode pre rest c :
  forallb (answers n) pre = true →
  switch_stores n mode (pre ++ rest) c =
  switch_stores n mode rest (foldl (λ c s, <[store_id s := mode]> c) c pre).
Proof.
  revert c. induction pre as [|s pre IH]; intros c Hall; [done|].
  simpl in Hall. apply andb_prop in Hall as [Hs Hall].
  unfold answers in Hs. apply andb_prop in Hs as [Hd Hr].
  apply bool_decide_eq_true in Hd, Hr.
  simpl. rewrite Hd, Hr. by apply IH.
Qed.

Lemma switch_stores_silent n mode k post c :
  answers n k = false →
  ∃ e, node_error n k = Some e ∧
       switch_stores n mode (k :: post) c = (c, Some e).
Proof.
  unfold answers, node_error. intros Hk. simpl.
  destruct (dial n k) as [e|]; [by exists e|].
  destruct (switch_rpc n k) as [e|]; [by exists e|].
  rewrite !bool_decide_eq_true_2 in Hk by done. done.
Qed.

Lemma applied_lookup mode (pre : list Store) (c : cluster) id :
  foldl (λ c s, <[store_id s := mode]> c) c pre !! id =
  if bool_decide (id ∈ store_id <$> pre) then Some mode else c !! id.
Proof.
  revert c. induction pre as [|s pre IH]; intros c; [done|].
  rewrite fmap_cons. cbn [foldl]. rewrite IH.
  destruct (decide (id ∈ store_id <$> pre)) as [Hin|Hin].
  - rewrite !bool_decide_eq_true_2; [done| |done]. by right.
  - rewrite (bool_decide_eq_false_2 _ Hin).
    destruct (decide (id = store_id s)) as [->|Hne].
    + rewrite bool_decide_eq_true_2 by left. apply lookup_insert_eq.
    + rewrite bool_decide_eq_false_2.
      * by apply lookup_insert_ne.
      * intros [?|?]%elem_of_cons; done.
Qed.

(** C7.  When the live nodes are [pre ++ k :: post], every node of [pre]
    answers and [k] does not, the broadcast returns the error node [k]
    produced, the nodes of [pre] are in the new mode, and every other node,
    [k] and the nodes after it included, is in the mode it had: the
    broadcast stops at [k] and nothing is rolled back. *)
Theorem switch_aborts_at_first_unreachable (n : net) (mode : SwitchMode)
    (c : cluster) (pre : list Store) (k : Store) (post : list Store) :
  GetAllStores n = inr (pre ++ k :: post) →
  forallb (answers n) pre = true →
  answers n k = false →
  ∃ e c',
    switchTiKVMode n mode c = (c', Some e) ∧
    node_error n k = Some e ∧
    (∀ s, s ∈ pre → c' !! store_id s = Some mode) ∧
    (∀ id, id ∉ store_id <$> pre → c' !! id = c !! id).
Proof.
  intros Hstores Hpre Hk. unfold switchTiKVMode. rewrite Hstores.
  rewrite switch_stores_answering by done.
  destruct (switch_stores_silent n mode k post
              (foldl (λ c s, <[store_id s := mode]> c) c pre) Hk)
    as (e & He & ->).
  exists e, (foldl (λ c s, <[store_id s := mode]> c) c pre).
  repeat split; [done| |].
  - intros s Hs. rewrite applied_lookup.
    rewrite bool_decide_eq_true_2; [done|]. by apply list_elem_of_fmap_2.
  - intros id Hid. rewrite applied_lookup. by rewrite bool_decide_eq_false_2.
Qed.

(** [switch_aborts_at_first_unreachable] on the sample cluster: node 1
    answers, node 2 refuses the connection. *)
Lemma switch_aborts_at_first_unreachable_witness :
  ∃ e c',
    switchTiKVMode ex_net SwitchMode_Import ∅ = (c', Some e) ∧
    node_error ex_net (mkStore 2 "tikv-2:20160") = Some e ∧
    (∀ s, s ∈ [mkStore 1 "tikv-1:20160"] → c' !! store_id s = Some SwitchMode_Import) ∧
    (∀ id, id ∉ store_id <$> [mkStore 1 "tikv-1:20160"] → c' !! id = (∅ : cluster) !! id).
Proof.
  apply (switch_aborts_at_first_unreachable ex_net SwitchMode_Import ∅
           [mkStore 1 "tikv-1:20160"] (mkStore 2 "tikv-2:20160")
           [mkStore 3 "tikv-3:20160"]); reflexivity.
Defined.

(** When every node answers, the mode is applied to all of them. *)
Lemma switch_all_answering n mode c stores :
  GetAllStores n = inr stores →
  forallb (answers n) stores = true →
  switchTiKVMode n mode c =
  (foldl (λ c s, <[store_id s := mode]> c) c stores, None).
Proof.
  intros Hs Hall. unfold switchTiKVMode. rewrite Hs.
  rewrite <- (app_nil_r stores) at 1.
  by rewrite switch_stores_answering.
Qed.

(** *** The rate limit *)

Lemma limit_stores_ok n stores rpcs rpcs' :
  limit_stores n stores rpcs = (rpcs', None) →
  rpcs' = rpcs ++ (store_id <$> stores).
Proof.
  revert rpcs. induction stores as [|s stores IH]; intros rpcs; simpl.
  - intros [= <-]. by rewrite app_nil_r.
  - destruct (setDownloadSpeedLimit n (store_id s)); [done|].
    intros ->%IH. by rewrite <- app_assoc.
Qed.

Lemma setSpeedLimit_done n rc rpcs :
  hasSpeedLimited rc = true → setSpeedLimit n rc rpcs = (rc, rpcs, None).
Proof. intros H. unfold setSpeedLimit. by rewrite H. Qed.

Lemma setSpeedLimit_applied n rc rpcs rc' rpcs' stores :
  hasSpeedLimited rc = false → rateLimit rc ≠ 0 →
  GetAllStores n = inr stores →
  setSpeedLimit n rc rpcs = (rc', rpcs', None) →
  rpcs' = rpcs ++ (store_id <$> stores) ∧ hasSpeedLimited rc' = true ∧
  rateLimit rc' = rateLimit rc.
Proof.
  intros Hflag Hrate Hstores. unfold setSpeedLimit.
  rewrite Hflag, Hstores. simpl.
  destruct (Z.eqb_spec (rateLimit rc) 0); [done|]. simpl.
  destruct (limit_stores n stores rpcs) as [r [e|]] eqn:Hl; [done|].
  intros [= <- <-]. split; [|done]. by apply limit_stores_ok in Hl.
Qed.

End BroadcastFacts.

(** ** Creating a table *)

Module SchemaFacts.
Import Schema.

Lemma cut_word w rest :
  has_space w = false → cut (w +:+ " " +:+ rest) = Some (w, rest).
Proof.
  induction w as [|c w IH]; simpl; [done|].
  intros [Hc Hw]%orb_false_elim. rewrite Hc. by rewrite (IH Hw).
Qed.

Lemma SplitN_two_words w0 w1 rest :
  has_space w0 = false → has_space w1 = false →
  SplitN (w0 +:+ " " +:+ w1 +:+ " " +:+ rest) 3 = [w0; w1; rest].
Proof.
  intros H0 H1. cbn [SplitN].
  rewrite (cut_word w0) by done. by rewrite (cut_word w1).
Qed.

Lemma insert_if_not_exists_words w0 w1 rest :
  has_space w0 = false → has_space w1 = false →
  ToUpper w0 = "CREATE" → ToUpper w1 = "TABLE" →
  insert_if_not_exists (w0 +:+ " " +:+ w1 +:+ " " +:+ rest) =
  "CREATE TABLE IF NOT EXISTS " +:+ rest.
Proof.
  intros H0 H1 Hc Ht. unfold insert_if_not_exists.
  rewrite SplitN_two_words by done.
  by rewrite !bool_decide_eq_true_2.
Qed.

(** C10.  A generated statement whose first two space-separated words read
    CREATE and TABLE, in any letter case, is executed as
    [CREATE TABLE IF NOT EXISTS] followed by the rest of the statement.
    When the engine accepts the [use] statement and this create statement,
    which an existing table does not prevent, [CreateTable] issues exactly
    three statements: the [use], the rewritten create and the [alter table]
    that sets [auto_increment] to the [AutoIncID] of the snapshot schema;
    its result is the result of that last statement. *)
Theorem CreateTable_if_not_exists {session : Type}
    (Execute : session → string → session * option error)
    (escapeTableName : string → string)
    (w0 w1 rest : string) (table : Table) (se : session) :
  has_space w0 = false → has_space w1 = false →
  ToUpper w0 = "CREATE" → ToUpper w1 = "TABLE" →
  let createSQL := w0 +:+ " " +:+ w1 +:+ " " +:+ rest in
  let executed := "CREATE TABLE IF NOT EXISTS " +:+ rest in
  let se1 := (Execute se (switchDbSQL table)).1 in
  let se2 := (Execute se1 executed).1 in
  (Execute se (switchDbSQL table)).2 = None →
  (Execute se1 executed).2 = None →
  insert_if_not_exists createSQL = executed ∧
  CreateTable Execute escapeTableName (inr createSQL) table (se, []) =
    (((Execute se2 (alterAutoIncIDSQL escapeTableName table)).1,
      [switchDbSQL table; executed; alterAutoIncIDSQL escapeTableName table]),
     (Execute se2 (alterAutoIncIDSQL escapeTableName table)).2) ∧
  alterAutoIncIDSQL escapeTableName table =
    "alter table " +:+ escapeTableName (tbl_Name (Info table)) +:+
    " auto_increment = " +:+ pretty (AutoIncID (Info table)).
Proof.
  intros H0 H1 Hc Ht createSQL executed se1 se2 Huse Hcreate.
  assert (insert_if_not_exists createSQL = executed) as Hrw
    by by apply insert_if_not_exists_words.
  split; [done|]. split; [|done].
  unfold CreateTable, exec. rewrite Hrw. simpl.
  subst se1 se2.
  destruct (Execute se (switchDbSQL table)) as [s1 r1] eqn:E1.
  simpl in *. subst r1.
  destruct (Execute s1 executed) as [s2 r2] eqn:E2.
  simpl in *. subst r2.
  by destruct (Execute s2 (alterAutoIncIDSQL escapeTableName table)).
Qed.

(** [CreateTable_if_not_exists] on the sample engine, with table [t] already
    there. *)
Lemma CreateTable_if_not_exists_witness :
  insert_if_not_exists "CREATE TABLE `t` (`a` int(11))" =
    "CREATE TABLE IF NOT EXISTS `t` (`a` int(11))" ∧
  CreateTable ex_execute ex_escape
      (inr "CREATE TABLE `t` (`a` int(11))") ex_table (["`t`"], []) =
    ((["`t`"], ["use test;"; "CREATE TABLE IF NOT EXISTS `t` (`a` int(11))";
                "alter table `t` auto_increment = 42"]), None).
Proof.
  destruct (CreateTable_if_not_exists ex_execute ex_escape
              "CREATE" "TABLE" "`t` (`a` int(11))" ex_table ["`t`"])
    as (H1 & H2 & _); try reflexivity.
  split; [exact H1|exact H2].
Defined.

(** On the sample engine the statement as generated fails when the table
    exists, and the statement [CreateTable] executes does not. *)
Lemma create_existing_table :
  ex_execute ["`t`"] "CREATE TABLE `t` (`a` int(11))" =
    (["`t`"], Some "table already exists") ∧
  ex_execute ["`t`"] (insert_if_not_exists "create table `t` (`a` int(11))") =
    (["`t`"], None).
Proof. split; reflexivity. Qed.

(** A statement that does not start with the two words is executed as it
    was generated. *)
Lemma insert_if_not_exists_view :
  insert_if_not_exists "CREATE ALGORITHM=UNDEFINED VIEW `v` AS SELECT 1" =
  "CREATE ALGORITHM=UNDEFINED VIEW `v` AS SELECT 1".
Proof. reflexivity. Qed.

(** A failing create statement ends [CreateTable] before the
    [alter table]. *)
Lemma CreateTable_create_fails {session : Type}
    (Execute : session → string → session * option error)
    escapeTableName createSQL table (se : session) e :
  (Execute se (switchDbSQL table)).2 = None →
  (Execute (Execute se (switchDbSQL table)).1
           (insert_if_not_exists createSQL)).2 = Some e →
  (CreateTable Execute escapeTableName (inr createSQL) table (se, [])).2 = Some e ∧
  (CreateTable Execute escapeTableName (inr createSQL) table (se, [])).1.2 =
    [switchDbSQL table; insert_if_not_exists createSQL].
Proof.
  intros Huse Hcreate. unfold CreateTable, exec. simpl.
  destruct (Execute se (switchDbSQL table)) as [s1 r1] eqn:E1.
  simpl in *. subst r1.
  destruct (Execute s1 (insert_if_not_exists createSQL)) as [s2 r2] eqn:E2.
  simpl in *. by subst r2.
Qed.

End SchemaFacts.

(** ** Restoring files through the worker pool *)

Module RestoreFacts.
Import Restore.

(** All tasks have sent when the count of signals equals the number of
    tasks. *)
Lemma sent_all (ts : list phase) i p :
  sent ts = length ts → ts !! i = Some p → sent_w p = 1%nat.
Proof.
  unfold sent. revert i. induction ts as [|a ts IH]; intros [|i] Hs Hl;
    simplify_eq/=.
  - assert (sum_list_with sent_w ts ≤ length ts)%nat.
    { clear. induction ts as [|b ts IH]; simpl; [lia|]. destruct b; simpl; lia. }
    destruct p; simpl in *; lia.
  - eapply IH; [|done].
    assert (sum_list_with sent_w ts ≤ length ts)%nat.
    { clear. induction ts as [|b ts IH]; simpl; [lia|]. destruct b; simpl; lia. }
    destruct a; simpl in *; lia.
Qed.

Lemma sent_le (ts : list phase) : (sent ts ≤ length ts)%nat.
Proof.
  unfold sent. induction ts as [|b ts IH]; simpl; [lia|].
  destruct b; simpl; lia.
Qed.

Lemma sent_lt (ts : list phase) i p :
  ts !! i = Some p → sent_w p = 0%nat → (sent ts < length ts)%nat.
Proof.
  intros Hl Hp. pose proof (sent_le ts).
  destruct (decide (sent ts = length ts)) as [Heq|]; [|lia].
  pose proof (sent_all ts i p Heq Hl). lia.
Qed.

(** Case analysis of one transition. *)
Ltac step_cases H :=
  match type of H with
  | step _ _ _ ?c ?s = Some _ =>
      destruct c; cbn [step] in H;
      [ unfold main_step in H | unfold task_step in H ];
      repeat (case_match; try done); simplify_eq
  end.

(** The effect of replacing the phase of a task on the counts. *)
Ltac sum_insert :=
  repeat match goal with
  | H : ?ts !! ?i = Some ?p |- context [<[?i := ?q]> ?ts] =>
      pose proof (sum_list_with_insert sent_w ts i p q H);
      pose proof (sum_list_with_insert busy_w ts i p q H);
      pose proof (sum_list_with_insert delivered_w ts i p q H);
      pose proof (sum_list_with_insert phase_w ts i p q H);
      generalize dependent (<[i := q]> ts); intros
  end.

Lemma ids_dispatch ids ts :
  ids_of_sent ids ts → ids_of_sent ids (ts ++ [Importing]).
Proof.
  intros Hids j. rewrite (Hids j). split; intros (p & Hp & Hw); exists p.
  - split; [|done]. by apply lookup_app_l_Some.
  - split; [|done]. apply lookup_app_Some in Hp as [?|[_ Hp]]; [done|].
    apply list_lookup_singleton_Some in Hp as [_ <-]. done.
Qed.

Lemma ids_update ids ts i p q :
  ts !! i = Some p → sent_w q = sent_w p →
  ids_of_sent ids ts → ids_of_sent ids (<[i:=q]> ts).
Proof.
  intros Hi Hw Hids j. rewrite (Hids j).
  split; intros (p' & Hp & Hw').
  - destruct (decide (i = j)) as [->|Hne].
    + exists q. rewrite list_lookup_insert_eq by (by eapply lookup_lt_Some).
      split; [done|]. simplify_eq. lia.
    + exists p'. by rewrite list_lookup_insert_ne.
  - apply list_lookup_insert_Some in Hp as [(-> & <- & _)|[Hne Hp]].
    + exists p. split; [done|lia].
    + by exists p'.
Qed.

Lemma ids_send ids ts i p q :
  ts !! i = Some p → sent_w p = 0%nat → sent_w q = 1%nat →
  ids_of_sent ids ts → (i ∉ ids) ∧ ids_of_sent (ids ++ [i]) (<[i:=q]> ts).
Proof.
  intros Hi Hp Hq Hids. split.
  - rewrite (Hids i). intros (p' & Hp' & Hw). simplify_eq. lia.
  - intros j. rewrite elem_of_app, (Hids j), list_elem_of_singleton.
    split.
    + intros [(p' & Hp' & Hw)| ->].
      * destruct (decide (i = j)) as [->|Hne]; [simplify_eq; lia|].
        exists p'. by rewrite list_lookup_insert_ne.
      * exists q. by rewrite list_lookup_insert_eq by (by eapply lookup_lt_Some).
    + intros (p' & Hp' & Hw).
      apply list_lookup_insert_Some in Hp' as [(-> & <- & _)|[Hne Hp']].
      * by right.
      * left. by exists p'.
Qed.

Section Preservation.
Variable Import : File → option error.
Variable width : nat.
Variable files : list File.

Local Abbreviation step := (step Import width files).
Local Abbreviation steps := (steps Import width files).

Lemma inv_shape_step c s s' :
  inv_shape files s → step c s = Some s' → inv_shape files s'.
Proof.
  intros [Hle Hd] Hs. unfold inv_shape.
  step_cases Hs; simpl; rewrite ?length_insert, ?length_app; simpl;
    repeat match goal with
           | H : _ !! _ = Some _ |- _ => apply lookup_lt_Some in H
           | H : _ !! _ = None |- _ => apply lookup_ge_None in H
           end;
    (split; [lia|intros ?; try congruence; try lia; try (apply Hd; congruence)]).
Qed.

Lemma inv_count_step c s s' :
  inv_count s → step c s = Some s' → inv_count s'.
Proof.
  unfold inv_count, sent. intros Hc Hs.
  step_cases Hs; simpl in *;
    rewrite ?length_app, ?sum_list_with_app in *; simpl in *;
    try sum_insert; simpl in *; lia.
Qed.

Lemma inv_progress_step c s s' :
  inv_progress s → step c s = Some s' → inv_progress s'.
Proof.
  unfold inv_progress, delivered. intros Hc Hs.
  step_cases Hs; simpl in *;
    rewrite ?sum_list_with_app in *; simpl in *;
    try sum_insert; simpl in *; lia.
Qed.

Lemma busy_zero_finished (ts : list phase) i p :
  busy ts = 0%nat → ts !! i = Some p → ∃ b, p = Finished b.
Proof.
  intros Hb Hl. pose proof (sum_list_with_zero_lookup busy_w ts i p Hb Hl).
  destruct p; simplify_eq/=. by eexists.
Qed.

Lemma inv_control_step c s s' :
  inv_control files s → step c s = Some s' → inv_control files s'.
Proof.
  intros Hc Hs.
  step_cases Hs; unfold inv_control, first_error in *; simpl in *;
    repeat match goal with H : pc _ = _ |- _ => rewrite H in Hc end.
  - done.
  - rewrite Hc. simpl. repeat split; [constructor|lia].
  - destruct Hc as (Hlen & Hnil & Hk). split; [done|]. by eexists _, _.
  - destruct Hc as (Hlen & Hnil & Hk). rewrite length_app. simpl.
    repeat split; [lia| |lia].
    apply Forall_app. split; [done|]. by repeat constructor.
  - destruct Hc as (Hlen & Hnil & Hk). split; [lia|done].
  - destruct Hc as (Hcan & Hfirst). done.
  - destruct (pc s) as [| | |[e|]]; try done.
    destruct Hc as (_ & Hb & _).
    by destruct (busy_zero_finished _ _ _ Hb H).
  - destruct (pc s) as [| | |[e|]]; try done.
    destruct Hc as (_ & Hb & _).
    by destruct (busy_zero_finished _ _ _ Hb H).
  - destruct (pc s) as [| | |[e|]]; try done.
    destruct Hc as (_ & Hb & _).
    by destruct (busy_zero_finished _ _ _ Hb H).
  - destruct (pc s) as [| | |[e|]]; try done.
    destruct Hc as (_ & Hb & _).
    by destruct (busy_zero_finished _ _ _ Hb H).
Qed.

Lemma inv_ids_step c s s' :
  inv_ids s → step c s = Some s' → inv_ids s'.
Proof.
  unfold inv_ids. intros [Hnd Hids] Hs.
  step_cases Hs; simpl in *;
    rewrite <- ?app_assoc in *; simpl in *; try done.
  - split; [done|]. by apply ids_dispatch.
  - split; [done|]. by eapply ids_update.
  - rewrite app_assoc, fmap_app. simpl.
    destruct (ids_send _ _ _ _ (Finished false) H eq_refl eq_refl Hids)
      as [Hni Hids'].
    split; [|done]. apply NoDup_app. repeat split; [done| |apply NoDup_singleton].
    intros x Hx ->%list_elem_of_singleton. done.
  - rewrite app_assoc, fmap_app. simpl.
    destruct (ids_send _ _ _ _ Notifying H eq_refl eq_refl Hids)
      as [Hni Hids'].
    split; [|done]. apply NoDup_app. repeat split; [done| |apply NoDup_singleton].
    intros x Hx ->%list_elem_of_singleton. done.
  - split; [done|]. by eapply ids_update.
Qed.

Lemma inv_results_step c s s' :
  inv_shape files s → inv_results Import files s → step c s = Some s' →
  inv_results Import files s'.
Proof.
  unfold inv_results. intros Hshape (Hsel & Hmsg & Hlive) Hs.
  step_cases Hs; simpl in *;
    rewrite <- ?app_assoc in *; simpl in *; try done.
  - (* dispatch *)
    split; [|split; [done|]].
    + intros j r [?|[_ Hj]]%lookup_app_Some; [by eapply Hsel|].
      by apply list_lookup_singleton_Some in Hj as [_ ?].
    + intros Hc. destruct (Hlive Hc) as [Hg Hf]. split; [done|].
      intros j [?|[_ Hj]]%lookup_app_Some; [by eapply Hf|].
      by apply list_lookup_singleton_Some in Hj as [_ ?].
  - (* the import returns *)
    split; [|split; [done|]].
    + intros j r [(-> & [= <-] & _)|[_ ?]]%list_lookup_insert_Some;
        [by eexists|by eapply Hsel].
    + intros Hc. destruct (Hlive Hc) as [Hg Hf]. split; [done|].
      intros j [(_ & ? & _)|[_ ?]]%list_lookup_insert_Some; [done|by eapply Hf].
  - (* the cancellation case of the select *)
    match goal with
    | H : _ && _ = true |- _ => apply andb_prop in H as [Hcan _]
    end.
    split; [|split; [|by rewrite Hcan]].
    + intros j r' [(_ & ? & _)|[_ ?]]%list_lookup_insert_Some;
        [done|by eapply Hsel].
    + intros m. rewrite app_assoc, elem_of_app, list_elem_of_singleton.
      intros [?| ->]; [by apply Hmsg|by left].
  - (* the send case of the select *)
    destruct (Hsel _ _ H) as (f & Hf & ->).
    split; [|split].
    + intros j r' [(_ & ? & _)|[_ ?]]%list_lookup_insert_Some;
        [done|by eapply Hsel].
    + intros m. rewrite app_assoc, elem_of_app, list_elem_of_singleton.
      intros [?| ->]; [by apply Hmsg|]. right. by exists f.
    + intros Hc. destruct (Hlive Hc) as [Hg Hfin]. split.
      * intros m. rewrite app_assoc, elem_of_app, list_elem_of_singleton.
        intros [?| ->]; [by apply Hg|]. by exists f.
      * intros j [(_ & ? & _)|[_ ?]]%list_lookup_insert_Some;
          [done|by eapply Hfin].
  - (* the send on updateCh *)
    split; [|split; [done|]].
    + intros j r' [(_ & ? & _)|[_ ?]]%list_lookup_insert_Some;
        [done|by eapply Hsel].
    + intros Hc. destruct (Hlive Hc) as [Hg Hfin]. split; [done|].
      intros j [(_ & ? & _)|[_ ?]]%list_lookup_insert_Some;
        [done|by eapply Hfin].
Qed.

Lemma inv_live_step c s s' :
  inv_results Import files s → inv_live Import files s →
  step c s = Some s' → inv_live Import files s'.
Proof.
  intros (_ & _ & Hlive) HL Hs.
  step_cases Hs; unfold inv_live in *; simpl in *;
    repeat match goal with H : pc _ = _ |- _ => rewrite H in * end;
    destruct HL as [Hg Hpc]; try done.
  - destruct (Hlive Hpc) as [Hall _]. split; [|done].
    intros m [?| ->%list_elem_of_singleton]%elem_of_app; [by apply Hg|].
    apply Hall. rewrite elem_of_app. right. left.
  - destruct (Hlive Hpc) as [Hall _]. split; [|done].
    intros m [?| ->%list_elem_of_singleton]%elem_of_app; [by apply Hg|].
    apply Hall. rewrite elem_of_app. right. left.
Qed.

Lemma Inv_init done : Inv Import files done (init done).
Proof.
  unfold Inv, init. repeat split; simpl; try done; try lia;
    try (by intros ? ?%elem_of_nil).
  - constructor.
  - by intros ?%elem_of_nil.
  - by intros (? & ? & ?).
Qed.

Lemma Inv_step done c s s' :
  Inv Import files done s → step c s = Some s' → Inv Import files done s'.
Proof.
  intros (H1 & H2 & H3 & H4 & H5 & H6 & H7) Hs.
  split; [by eapply inv_shape_step|].
  split; [by eapply inv_count_step|].
  split; [by eapply inv_ids_step|].
  split; [by eapply inv_control_step|].
  split; [by eapply inv_results_step|].
  split; [by eapply inv_progress_step|].
  intros Hd. eapply inv_live_step; eauto.
Qed.

Lemma Inv_reachable done s :
  reachable Import width files done s → Inv Import files done s.
Proof.
  unfold reachable. intros Hr.
  revert s Hr. apply rtc_ind_r; [apply Inv_init|].
  intros y z _ [c Hc] IH. by eapply Inv_step.
Qed.

(** *** Termination *)

Lemma measure_step c s s' :
  step c s = Some s' →
  (measure (length files) s' < measure (length files) s)%nat.
Proof.
  intros Hs. unfold measure.
  step_cases Hs; simpl in *;
    rewrite ?length_app, ?length_insert, ?sum_list_with_app in *; simpl in *;
    repeat match goal with
           | H : files !! _ = Some _ |- _ => apply lookup_lt_Some in H
           end;
    try sum_insert; simpl in *; lia.
Qed.

Lemma steps_sn s : sn steps s.
Proof.
  remember (measure (length files) s) as n eqn:Hn. revert s Hn.
  induction n as [n IH] using lt_wf_ind. intros s ->.
  constructor. intros s' [c Hc]. eapply IH; [|done].
  by eapply measure_step.
Qed.

(** *** Progress *)

Lemma unsent_task (ts : list phase) :
  (sent ts < length ts)%nat → ∃ i p, ts !! i = Some p ∧ sent_w p = 0%nat.
Proof.
  unfold sent. induction ts as [|a ts IH]; simpl; [lia|]. intros Hlt.
  destruct (decide (sent_w a = 0%nat)).
  - by exists 0%nat, a.
  - assert (sent_w a = 1%nat) by (destruct a; simpl in *; lia).
    destruct IH as (i & p & ? & ?); [lia|]. by exists (S i), p.
Qed.

Lemma task_can_step s i p :
  inv_shape files s → inv_count s →
  tasks s !! i = Some p → busy_w p = 1%nat →
  ∃ s', step (Task i false) s = Some s'.
Proof.
  intros [Hle _] Hcount Hi Hp. cbn [Restore.step]. unfold task_step. rewrite Hi.
  destruct p as [|r| |b]; simpl in Hp; [| | |done].
  - destruct (lookup_lt_is_Some_2 files i) as [f ->]; [|by eexists].
    apply lookup_lt_Some in Hi. lia.
  - pose proof (sent_lt _ _ _ Hi eq_refl). unfold inv_count in Hcount.
    rewrite decide_True by lia. rewrite andb_false_r. by eexists.
  - by eexists.
Qed.

Lemma busy_task_can_step s :
  inv_shape files s → inv_count s → (0 < busy (tasks s))%nat →
  ∃ c s', step c s = Some s'.
Proof.
  intros Hshape Hcount Hb.
  apply sum_list_with_pos_lookup in Hb as (i & p & Hi & Hp).
  destruct (task_can_step s i p) as [s' Hs']; try done.
  - destruct p; simpl in *; lia.
  - by exists (Task i false), s'.
Qed.

Lemma unsent_is_busy p : sent_w p = 0%nat → busy_w p = 1%nat.
Proof. by destruct p. Qed.

(** A call that has not returned can always move, whatever the number of
    tasks in flight. *)
Lemma steps_progress done s :
  (0 < width)%nat → Inv Import files done s →
  (∀ c, step c s = None) → ∃ r, pc s = Returned r.
Proof.
  intros Hw (Hshape & Hcount & _ & Hctl & _) Hstuck.
  destruct (pc s) as [|k|e|r] eqn:Hpc; [| | |by eexists]; exfalso.
  - (* dispatching *)
    pose proof (Hstuck Main) as Hm. cbn [Restore.step] in Hm.
    unfold main_step in Hm. rewrite Hpc in Hm.
    destruct (files !! length (tasks s)); [|done].
    case_decide; [done|].
    destruct (busy_task_can_step s) as (c & s' & Hs'); [done|done|lia|].
    by rewrite Hstuck in Hs'.
  - (* collecting *)
    pose proof (Hstuck Main) as Hm. cbn [Restore.step] in Hm.
    unfold main_step in Hm. rewrite Hpc in Hm.
    case_decide; [|done].
    unfold inv_control in Hctl. rewrite Hpc in Hctl.
    destruct Hctl as (Hlen & _ & _).
    destruct (errCh s) as [|[i [e|]] q] eqn:Hch; try done.
    pose proof Hcount as Hsent.
    unfold inv_count in Hsent. rewrite Hch in Hsent. simpl in Hsent.
    pose proof Hshape as [_ Hfull]. rewrite Hpc in Hfull.
    destruct (unsent_task (tasks s)) as (i & p & Hi & Hp);
      [rewrite Hfull by done; lia|].
    destruct (task_can_step s i p) as [s' Hs']; try done.
    + by apply unsent_is_busy.
    + by rewrite Hstuck in Hs'.
  - (* waiting for the tasks *)
    pose proof (Hstuck Main) as Hm. cbn [Restore.step] in Hm.
    unfold main_step in Hm. rewrite Hpc in Hm.
    case_decide; [done|].
    destruct (busy_task_can_step s) as (c & s' & Hs'); [done|done|lia|].
    by rewrite Hstuck in Hs'.
Qed.

Lemma run_reachable done sched s :
  run Import width files sched (init done) = Some s →
  reachable Import width files done s.
Proof.
  unfold reachable. generalize (init done). intros s0.
  revert s0. induction sched as [|c sched IH]; intros s0; simpl.
  - by intros [= ->].
  - destruct (Restore.step Import width files c s0) as [s1|] eqn:Hc; [|done].
    intros Hr. eapply rtc_l; [by exists c|by apply IH].
Qed.

Lemma reachable_run done s :
  reachable Import width files done s →
  ∃ sched, run Import width files sched (init done) = Some s.
Proof.
  unfold reachable. generalize (init done). intros s0.
  induction 1 as [s0|s0 s1 s2 [c Hc] _ [sched IH]].
  - by exists [].
  - exists (c :: sched). simpl. by rewrite Hc.
Qed.
End Preservation.

Section Results.
Variable Import : File → option error.
Variable width : nat.
Variable files : list File.

Local Abbreviation step := (step Import width files).
Local Abbreviation steps := (steps Import width files).
Local Abbreviation run := (run Import width files).

(** With the context live at entry, a nil return means every import ran
    and returned nil. *)
Lemma nil_return_sound s :
  Inv Import files false s → pc s = Returned None →
  ∀ f, f ∈ files → Import f = None.
Proof.
  intros (Hshape & Hcount & [_ Hids] & Hctl & _ & _ & Hlive) Hpc f Hf.
  destruct (Hlive eq_refl) as [Hgen _].
  unfold inv_control in Hctl. rewrite Hpc in Hctl. destruct Hctl as [Hlen Hnil].
  destruct Hshape as [Hle Hfull]. rewrite Hpc in Hfull.
  specialize (Hfull ltac:(done)).
  unfold inv_count in Hcount. pose proof (sent_le (tasks s)) as Hsl.
  assert (errCh s = []) as Hch by (apply length_zero_iff_nil; lia).
  rewrite Hch, app_nil_r in Hids.
  apply list_elem_of_lookup in Hf as [i Hi].
  destruct (lookup_lt_is_Some_2 (tasks s) i) as [p Hp].
  { apply lookup_lt_Some in Hi. lia. }
  assert (sent_w p = 1%nat) as Hw.
  { eapply sent_all; [|done]. rewrite Hch in Hcount. simpl in Hcount. lia. }
  assert (i ∈ (consumed s).*1) as Hin by (apply Hids; eauto).
  apply list_elem_of_fmap in Hin as ([j r] & -> & Hm).
  rewrite Forall_forall in Hnil.
  destruct (Hgen _ Hm) as (f' & Hf' & Hr). simpl in *.
  pose proof (Hnil _ Hm) as Hn. unfold is_nil in Hn. simpl in Hn.
  by simplify_eq.
Qed.

(** The error a call returns is the import error of one of the files,
    the first one the caller received. *)
Lemma returned_error_genuine s e :
  Inv Import files false s → pc s = Returned (Some e) →
  cancelled s = true ∧ busy (tasks s) = 0%nat ∧
  length (tasks s) = length files ∧
  ∃ pre i f, consumed s = pre ++ [(i, Some e)] ∧ Forall is_nil pre ∧
             files !! i = Some f ∧ Import f = Some e.
Proof.
  intros (Hshape & _ & _ & Hctl & _ & _ & Hlive) Hpc.
  destruct (Hlive eq_refl) as [Hgen _].
  unfold inv_control in Hctl. rewrite Hpc in Hctl.
  destruct Hctl as (Hcan & Hbusy & pre & i & Hcons & Hnil).
  destruct Hshape as [_ Hfull]. rewrite Hpc in Hfull.
  repeat split; [done|done|by apply Hfull|].
  destruct (Hgen (i, Some e)) as (f & Hf & He).
  { rewrite Hcons, elem_of_app. right. left. }
  by exists pre, i, f.
Qed.

(** When no import fails, no error is ever received. *)
Lemma no_error_received s :
  Inv Import files false s →
  (∀ f, f ∈ files → Import f = None) →
  ∀ e, pc s ≠ Waiting e ∧ pc s ≠ Returned (Some e).
Proof.
  intros (_ & _ & _ & Hctl & _ & _ & Hlive) Hok e.
  destruct (Hlive eq_refl) as [Hgen _].
  unfold inv_control, first_error in Hctl.
  assert (∀ pre i, consumed s ≠ pre ++ [(i, Some e)]) as Hno.
  { intros pre i Hcons. destruct (Hgen (i, Some e)) as (f & Hf & He).
    - rewrite Hcons, elem_of_app. right. left.
    - simpl in *. rewrite (Hok f) in He; [done|].
      by eapply list_elem_of_lookup_2. }
  split; intros Hpc; rewrite Hpc in Hctl.
  - destruct Hctl as (_ & pre & i & Hcons & _). by eapply Hno.
  - destruct Hctl as (_ & _ & pre & i & Hcons & _). by eapply Hno.
Qed.

Lemma delivered_all (ts : list phase) :
  busy ts = 0%nat → (∀ i, ts !! i ≠ Some (Finished false)) →
  delivered ts = length ts.
Proof.
  unfold busy, delivered. induction ts as [|p ts IH]; simpl; [done|].
  intros Hb Hf. rewrite IH; [|lia|intros i; apply (Hf (S i))].
  destruct p as [| | |[|]]; simpl in *; try lia.
  by specialize (Hf 0%nat).
Qed.

Lemma stuck_not_busy done s :
  Inv Import files done s → (∀ c, step c s = None) → busy (tasks s) = 0%nat.
Proof.
  intros (Hshape & Hcount & _) Hstuck.
  destruct (decide (busy (tasks s) = 0%nat)) as [|Hne]; [done|].
  destruct (busy_task_can_step Import width files s) as (c & s' & Hs');
    [done|done|lia|].
  by rewrite Hstuck in Hs'.
Qed.
End Results.

(** C2, as the code has it.  With the context live at entry, a pool of at
    least one worker and at least one failing import: no run of the call is
    infinite and a run that cannot move has returned an error, so the
    caller never blocks for good; the call never returns nil; the error it
    returns is the first non-nil value received, which is the error of the
    import of the file of the task that sent it, and is returned after the
    cancellation and after every task has finished; every task past its
    [select] has exactly one value among the values received and still in
    the channel, so a value is received at most once.  Values of the
    remaining tasks may stay in the channel. *)
Theorem RestoreFiles_fail_fast (Import : File → option error) (width : nat)
    (files : list File) (sched : list choice) (s : state) :
  (0 < width)%nat →
  existsb (λ f, bool_decide (Import f ≠ None)) files = true →
  run Import width files sched (init false) = Some s →
  sn (steps Import width files) s ∧
  ((∀ c, step Import width files c s = None) → ∃ e, pc s = Returned (Some e)) ∧
  pc s ≠ Returned None ∧
  (∀ e, pc s = Returned (Some e) →
     cancelled s = true ∧ busy (tasks s) = 0%nat ∧
     length (tasks s) = length files ∧
     ∃ pre i f, consumed s = pre ++ [(i, Some e)] ∧ Forall is_nil pre ∧
                files !! i = Some f ∧ Import f = Some e) ∧
  NoDup ((consumed s ++ errCh s).*1) ∧
  (∀ i, i ∈ (consumed s ++ errCh s).*1 ↔
        ∃ p, tasks s !! i = Some p ∧ sent_w p = 1%nat).
Proof.
  intros Hw Hfail Hrun.
  pose proof (Inv_reachable _ _ _ _ _ (run_reachable _ _ _ _ _ _ Hrun)) as HI.
  assert (pc s ≠ Returned None) as Hnil.
  { intros Hpc. apply existsb_exists in Hfail as (f & Hf & Hne).
    apply bool_decide_eq_true in Hne. apply Hne.
    eapply nil_return_sound; [done|done|]. by apply list_elem_of_In. }
  split; [apply steps_sn|].
  split.
  { intros Hstuck. destruct (steps_progress _ _ _ _ _ Hw HI Hstuck) as [[e|] Hr];
      [by exists e|done]. }
  split; [done|].
  split; [intros e He; by apply returned_error_genuine|].
  destruct HI as (_ & _ & [Hnd Hids] & _). by split.
Qed.

(** [RestoreFiles_fail_fast] on the sample batch of two files. *)
Lemma RestoreFiles_fail_fast_witness :
  run ex_import 2 [ex_bad; ex_good] ex_sched_two (init false) = Some ex_final_two ∧
  sn (steps ex_import 2 [ex_bad; ex_good]) ex_final_two ∧
  pc ex_final_two ≠ Returned None ∧
  NoDup ((consumed ex_final_two ++ errCh ex_final_two).*1).
Proof.
  split; [reflexivity|].
  destruct (RestoreFiles_fail_fast ex_import 2 [ex_bad; ex_good]
              ex_sched_two ex_final_two) as (H1 & _ & H3 & _ & H5 & _);
    [lia|reflexivity|reflexivity|].
  split; [exact H1|]. split; [exact H3|exact H5].
Defined.

(** C2 as worded fails on the code: in this run of two tasks the call has
    returned the error of the first file and nothing can move any more, yet
    the value the second task sent is still in the channel: the caller
    never received it. *)
Lemma RestoreFiles_signal_left_unconsumed :
  run ex_import 2 [ex_bad; ex_good] ex_sched_two (init false) = Some ex_final_two ∧
  pc ex_final_two = Returned (Some "import failed") ∧
  (∀ c, step ex_import 2 [ex_bad; ex_good] c ex_final_two = None) ∧
  tasks ex_final_two !! 1%nat = Some (Finished true) ∧
  errCh ex_final_two = [(1%nat, None)] ∧
  1%nat ∉ (consumed ex_final_two).*1.
Proof.
  repeat split; try reflexivity.
  - intros [|[|[|i]] b]; reflexivity.
  - simpl. intros [?|?%elem_of_nil]%elem_of_cons; done.
Qed.

(** C5, as the code has it.  In every state of a call the counter equals
    the number of tasks that took the send case of the [select] and
    finished: one increment per delivered result, whether that result is
    nil or an error, and none for a task that took the cancellation case.
    With the context live at entry and no failing import, the context is
    never cancelled, no error is returned, no run is infinite, and a run
    that cannot move has returned nil with the counter at the number of
    files. *)
Theorem progress_counts_delivered (Import : File → option error)
    (width : nat) (files : list File) (done : bool) (sched : list choice)
    (s : state) :
  run Import width files sched (init done) = Some s →
  progress s = delivered (tasks s) ∧
  sn (steps Import width files) s ∧
  (done = false → (0 < width)%nat → (∀ f, f ∈ files → Import f = None) →
   cancelled s = false ∧ (∀ e, pc s ≠ Returned (Some e)) ∧
   ((∀ c, step Import width files c s = None) →
    pc s = Returned None ∧ progress s = length files)).
Proof.
  intros Hrun.
  pose proof (Inv_reachable _ _ _ _ _ (run_reachable _ _ _ _ _ _ Hrun)) as HI.
  split; [by destruct HI as (_ & _ & _ & _ & _ & ? & _)|].
  split; [apply steps_sn|].
  intros -> Hw Hok.
  pose proof (no_error_received _ _ _ HI Hok) as Hne.
  assert (cancelled s = false) as Hcan.
  { destruct HI as (_ & _ & _ & _ & _ & _ & Hlive).
    destruct (Hlive eq_refl) as [_ Hpc].
    destruct (pc s) as [| |e|[e|]] eqn:E; try done.
    - by destruct (Hne e).
    - by destruct (Hne e). }
  split; [done|]. split; [intros e; by destruct (Hne e)|].
  intros Hstuck.
  destruct (steps_progress _ _ _ _ _ Hw HI Hstuck) as [[e|] Hr];
    [by destruct (Hne e)|].
  split; [done|].
  pose proof (stuck_not_busy _ _ _ _ _ HI Hstuck) as Hb.
  destruct HI as ([_ Hfull] & _ & _ & _ & (_ & _ & Hres) & Hprog & _).
  rewrite Hprog, <- Hfull by by rewrite Hr.
  apply delivered_all; [done|]. by destruct (Hres Hcan).
Qed.

(** [progress_counts_delivered] on a batch of two files that import well. *)
Lemma progress_counts_delivered_witness :
  run ex_import 2 [ex_good; ex_good] ex_sched_ok (init false) = Some ex_final_ok ∧
  progress ex_final_ok = delivered (tasks ex_final_ok).
Proof.
  split; [reflexivity|].
  destruct (progress_counts_delivered ex_import 2 [ex_good; ex_good] false
              ex_sched_ok ex_final_ok) as [H _]; [reflexivity|exact H].
Defined.

(** C5 as worded fails on the code: the import of the only file fails and
    the counter is incremented all the same. *)
Lemma progress_counts_failed_import :
  ex_import ex_bad = Some "import failed" ∧
  run ex_import 1 [ex_bad] ex_sched_send (init false) = Some ex_final_send ∧
  pc ex_final_send = Returned (Some "import failed") ∧
  progress ex_final_send = 1%nat.
Proof. repeat split; reflexivity. Qed.

(** C6 on the code.  With the context already cancelled when the call
    starts, the task of a file whose import fails may take the cancellation
    case and send nil; the caller receives it and returns nil.  The second
    part shows how a client gets there: its first batch fails and cancels
    the context, its second batch, whose import fails too, returns nil. *)
Lemma cancelled_sentinel_reported_as_success :
  ex_import ex_bad = Some "import failed" ∧
  run ex_import 1 [ex_bad] ex_sched_done (init true) = Some ex_final_done ∧
  pc ex_final_done = Returned None ∧
  let first := RestoreFiles ex_import 1 [ex_bad] ex_all_up ex_client []
                            ex_sched_send in
  let second := RestoreFiles ex_import 1 [ex_bad] ex_all_up first.1.1 first.1.2
                             ex_sched_done in
  first.2 = Some ex_final_send ∧ ctx_done first.1.1 = true ∧
  second.2 = Some ex_final_done.
Proof. repeat split; reflexivity. Qed.

(** *** The rate limit across batches *)

Lemma RestoreFiles_limited Import width files n rc rpcs sched :
  hasSpeedLimited rc = true →
  (RestoreFiles Import width files n rc rpcs sched).1.2 = rpcs ∧
  hasSpeedLimited (RestoreFiles Import width files n rc rpcs sched).1.1 = true.
Proof.
  intros Hflag. unfold RestoreFiles.
  rewrite BroadcastFacts.setSpeedLimit_done by done.
  by destruct (run Import width files sched (init (ctx_done rc))).
Qed.

Lemma restore_calls_limited calls rc rpcs :
  hasSpeedLimited rc = true →
  (restore_calls calls rc rpcs).2 = rpcs ∧
  hasSpeedLimited (restore_calls calls rc rpcs).1 = true.
Proof.
  revert rc rpcs. induction calls as [|c calls IH]; intros rc rpcs Hflag; [done|].
  cbn [restore_calls].
  set (rc0 := match call_rate c with Some r => SetRateLimit rc r | None => rc end).
  assert (hasSpeedLimited rc0 = true) as Hflag0.
  { unfold rc0. by destruct (call_rate c). }
  destruct (RestoreFiles_limited (call_Import c) (call_width c) (call_files c)
              (call_net c) rc0 rpcs (call_sched c) Hflag0) as [Hr Hf].
  destruct (IH _ (RestoreFiles (call_Import c) (call_width c) (call_files c)
                    (call_net c) rc0 rpcs (call_sched c)).1.2 Hf) as [IH1 IH2].
  rewrite IH1, IH2. by rewrite Hr.
Qed.

(** C8.  When [setSpeedLimit] runs with the flag unset and a non-zero rate
    limit and succeeds, it has issued one rate-limit call per live node, in
    order, and set the flag; a batch started on such a client issues exactly
    these calls; and whatever batches follow on the same client, also after
    [SetRateLimit], they issue no further rate-limit call and leave the flag
    set. *)
Theorem rate_limit_one_shot (n : Broadcast.net) (rc rc' : Client)
    (rpcs rpcs' : list Z) (stores : list Store) :
  hasSpeedLimited rc = false → rateLimit rc ≠ 0 →
  Broadcast.GetAllStores n = inr stores →
  Broadcast.setSpeedLimit n rc rpcs = (rc', rpcs', None) →
  rpcs' = rpcs ++ (store_id <$> stores) ∧
  hasSpeedLimited rc' = true ∧
  (∀ Import width files sched,
     (RestoreFiles Import width files n rc rpcs sched).1.2 = rpcs' ∧
     hasSpeedLimited (RestoreFiles Import width files n rc rpcs sched).1.1 = true) ∧
  (∀ calls,
     (restore_calls calls rc' rpcs').2 = rpcs' ∧
     hasSpeedLimited (restore_calls calls rc' rpcs').1 = true).
Proof.
  intros Hflag Hrate Hstores Hset.
  destruct (BroadcastFacts.setSpeedLimit_applied _ _ _ _ _ _ Hflag Hrate Hstores Hset)
    as (Hr & Hf & _).
  split; [done|]. split; [done|]. split.
  - intros Import width files sched. unfold RestoreFiles. rewrite Hset.
    by destruct (run Import width files sched (init (ctx_done rc'))).
  - intros calls. by apply restore_calls_limited.
Qed.

(** [rate_limit_one_shot] on the sample cluster of three nodes. *)
Lemma rate_limit_one_shot_witness :
  Broadcast.setSpeedLimit ex_all_up ex_client [] =
    (mkClient 128 true false, [1; 2; 3], None) ∧
  (∀ calls,
     (restore_calls calls (mkClient 128 true false) [1; 2; 3]).2 = [1; 2; 3] ∧
     hasSpeedLimited (restore_calls calls (mkClient 128 true false) [1; 2; 3]).1 = true).
Proof.
  split; [reflexivity|].
  destruct (rate_limit_one_shot ex_all_up ex_client (mkClient 128 true false)
              [] [1; 2; 3] Broadcast.ex_stores) as (_ & _ & _ & H);
    [reflexivity|simpl; lia|reflexivity|reflexivity|exact H].
Defined.

End RestoreFacts.

(** ** Validating checksums through a worker pool *)

Module ChecksumFacts.
Import Checksum.

Ltac step_cases H :=
  match type of H with
  | step _ _ _ _ ?c ?s = Some _ =>
      unfold step in H; destruct c;
      repeat (case_match; try done); simplify_eq
  end.

Ltac sum_insert :=
  repeat match goal with
  | H : ?ts !! ?i = Some ?p |- context [<[?i := ?q]> ?ts] =>
      pose proof (sum_list_with_insert busy_w ts i p q H);
      pose proof (sum_list_with_insert phase_w ts i p q H);
      pose proof (length_insert ts i q);
      generalize dependent (<[i := q]> ts); intros
  end.

Lemma cs_busy_le (ts : list phase) : (busy ts ≤ length ts)%nat.
Proof.
  unfold busy. induction ts as [|p ts IH]; simpl; [lia|].
  destruct p; simpl; lia.
Qed.

Lemma cs_busy_zero_finished (ts : list phase) i p :
  busy ts = 0%nat → ts !! i = Some p → p = Finished.
Proof.
  intros Hb Hl. pose proof (sum_list_with_zero_lookup busy_w ts i p Hb Hl).
  by destruct p.
Qed.

Section Preservation.
Variable cl : cluster.
Variable width : nat.
Variable tables : list Table.
Variable newTables : list TableInfo.

Local Abbreviation step := (step cl width tables newTables).
Local Abbreviation steps := (steps cl width tables newTables).
Local Abbreviation result := (result cl tables newTables).
Local Abbreviation Inv := (Inv cl tables newTables).

Lemma cs_shape_step c s s' :
  inv_shape tables s → step c s = Some s' → inv_shape tables s'.
Proof.
  intros HI Hs.
  step_cases Hs; unfold inv_shape in *; simpl in *;
    destruct HI as [Hle Hcl];
    repeat match goal with
           | H : tables !! _ = Some _ |- _ => apply lookup_lt_Some in H
           end;
    rewrite ?length_app in *; simpl in *;
    unfold busy in *; try sum_insert; simpl in *;
    (split; [lia|]); intros Hc;
    repeat match goal with H : _ ∧ _ |- _ => destruct H end;
    try (destruct Hcl as [? ?]; [congruence|]);
    rewrite ?sum_list_with_app; simpl;
    split; lia.
Qed.

Lemma cs_tasks_step c s s' :
  inv_tasks cl tables newTables s → step c s = Some s' →
  inv_tasks cl tables newTables s'.
Proof.
  intros [Hsend Hfin] Hs.
  step_cases Hs; unfold inv_tasks; simpl in *; try done.
  - split.
    + intros j e [?|[_ Hj]]%lookup_app_Some; [by eapply Hsend|].
      by apply list_lookup_singleton_Some in Hj as [_ ?].
    + intros Hr j [?|[_ Hj]]%lookup_app_Some; [by eapply Hfin|].
      by apply list_lookup_singleton_Some in Hj as [_ ?].
  - split.
    + intros j e' [(-> & [= <-] & _)|[_ ?]]%list_lookup_insert_Some;
        [done|by eapply Hsend].
    + intros Hr j [(_ & ? & _)|[_ ?]]%list_lookup_insert_Some;
        [done|by eapply Hfin].
  - split.
    + intros j e' [(_ & ? & _)|[_ ?]]%list_lookup_insert_Some;
        [done|by eapply Hsend].
    + intros Hr j [(-> & _ & _)|[_ ?]]%list_lookup_insert_Some;
        [done|by eapply Hfin].
  - split; [|done].
    intros j e' [(_ & ? & _)|[_ ?]]%list_lookup_insert_Some;
      [done|by eapply Hsend].
Qed.

Lemma cs_ret_step c s s' :
  inv_shape tables s → inv_tasks cl tables newTables s →
  inv_ret cl tables newTables s → step c s = Some s' →
  inv_ret cl tables newTables s'.
Proof.
  intros Hshape [Hsend Hfin] Hret Hs.
  pose proof (cs_busy_le (tasks s)) as Hble.
  unfold inv_ret in Hret.
  destruct (ret s) as [[e|]|] eqn:Hr.
  - (* an error was returned *)
    destruct Hret as (k & Hk & Hres).
    step_cases Hs; unfold inv_ret; simpl in *; rewrite ?Hr; try done.
    + exists k. split; [|done]. by apply lookup_app_l_Some.
    + by exists k.
    + by exists k.
    + exists k. split; [|done].
      rewrite list_lookup_insert_ne; [done|]. intros ->. congruence.
    + exists k. split; [|done].
      rewrite list_lookup_insert_ne; [done|]. intros ->. congruence.
  - (* nil was returned *)
    destruct Hret as (Hcl & Hprog & Hall).
    destruct Hshape as [_ Hfull]. destruct (Hfull Hcl) as [Hlen Hbusy].
    step_cases Hs; unfold inv_ret; simpl in *; rewrite ?Hr; try done.
    all: exfalso;
      try match goal with
          | H : tasks _ !! _ = Some Running |- _ => by destruct (Hall _ _ H)
          end;
      match goal with
      | H : tables !! _ = Some _ |- _ => apply lookup_lt_Some in H; lia
      end.
  - (* the caller is still in its loop *)
    step_cases Hs; unfold inv_ret; simpl in *; rewrite ?Hr;
      unfold busy in *; rewrite ?length_app, ?sum_list_with_app in *;
      simpl in *.
    + lia.
    + done.
    + done.
    + sum_insert. simpl in *. lia.
    + sum_insert. simpl in *. lia.
    + eexists. split; [|by eapply Hsend].
      apply list_lookup_insert_eq. by eapply lookup_lt_Some.
    + destruct Hshape as [_ Hfull]. destruct Hfull as [Hlen Hbusy]; [done|].
      split; [done|]. split; [unfold busy in *; lia|]. intros j p Hj.
      pose proof (cs_busy_zero_finished _ _ _ Hbusy Hj) as ->.
      split; [done|]. by eapply Hfin.
Qed.

Lemma cs_panic_step c s s' :
  (length tables ≤ length newTables)%nat →
  step c s = Some s' → panicked s' = false.
Proof.
  intros Hlen Hs. step_cases Hs; simpl; try done.
  repeat match goal with
         | H : _ !! _ = Some _ |- _ => apply lookup_lt_Some in H
         | H : _ !! _ = None |- _ => apply lookup_ge_None in H
         end.
  lia.
Qed.

Lemma cs_Inv_init : Inv (init).
Proof.
  unfold Inv, init, inv_shape, inv_tasks, inv_ret. simpl.
  repeat split; try done; lia.
Qed.

Lemma cs_Inv_step c s s' : Inv s → step c s = Some s' → Inv s'.
Proof.
  intros (H1 & H2 & H3 & H4) Hs.
  split; [by eapply cs_shape_step|].
  split; [by eapply cs_tasks_step|].
  split; [by eapply cs_ret_step|].
  intros Hlen. by eapply cs_panic_step.
Qed.

Lemma cs_Inv_reachable s : reachable cl width tables newTables s → Inv s.
Proof.
  unfold reachable. revert s. apply rtc_ind_r; [apply cs_Inv_init|].
  intros y z _ [c Hc] IH. by eapply cs_Inv_step.
Qed.

Lemma cs_run_reachable sched s :
  run cl width tables newTables sched init = Some s →
  reachable cl width tables newTables s.
Proof.
  unfold reachable. generalize init. intros s0.
  revert s0. induction sched as [|c sched IH]; intros s0; simpl.
  - by intros [= ->].
  - destruct (Checksum.step cl width tables newTables c s0) as [s1|] eqn:Hc;
      [|done].
    intros Hr. eapply rtc_l; [by exists c|by apply IH].
Qed.

(** *** Termination and progress *)

Lemma cs_measure_step c s s' :
  step c s = Some s' →
  (measure (length tables) s' < measure (length tables) s)%nat.
Proof.
  intros Hs. unfold measure.
  step_cases Hs; simpl in *;
    repeat match goal with
           | H : tables !! _ = Some _ |- _ => apply lookup_lt_Some in H
           | H : panicked _ = _ |- _ => rewrite H
           | H : ret _ = _ |- _ => rewrite H
           | H : closed _ = _ |- _ => rewrite H
           | H : _ ∧ _ |- _ => destruct H
           end;
    rewrite ?length_app, ?sum_list_with_app in *; simpl in *;
    try sum_insert; simpl in *;
    try (destruct (ret s)); try (destruct (closed s)); simpl; lia.
Qed.

Lemma cs_steps_sn s : sn steps s.
Proof.
  remember (measure (length tables) s) as n eqn:Hn. revert s Hn.
  induction n as [n IH] using lt_wf_ind. intros s ->.
  constructor. intros s' [c Hc]. eapply IH; [|done].
  by eapply cs_measure_step.
Qed.

(** A caller still in its loop can always be served: by a task blocked in
    its send, by a task that still computes, by the dispatcher, or by the
    closed channel. *)
Lemma cs_steps_progress s :
  (0 < width)%nat → (length tables ≤ length newTables)%nat →
  Inv s → (∀ c, step c s = None) → ret s ≠ None.
Proof.
  intros Hw Hlen ([Hle Hcl] & _ & _ & Hpanic) Hstuck Hret.
  specialize (Hpanic Hlen).
  destruct (decide (busy (tasks s) = 0%nat)) as [Hb|Hb].
  - destruct (decide (length (tasks s) < length tables)%nat) as [Hlt|Hge].
    + pose proof (Hstuck Dispatch) as Hd. unfold Checksum.step in Hd.
      rewrite Hpanic in Hd.
      destruct (lookup_lt_is_Some_2 tables (length (tasks s))) as [t Ht];
        [done|].
      destruct (lookup_lt_is_Some_2 newTables (length (tasks s))) as [nt Hnt];
        [lia|].
      rewrite Ht, Hnt in Hd. rewrite decide_True in Hd by lia. done.
    + destruct (closed s) eqn:Hc.
      * pose proof (Hstuck RecvClosed) as Hd. unfold Checksum.step in Hd.
        by rewrite Hpanic, Hret, Hc in Hd.
      * pose proof (Hstuck Close) as Hd. unfold Checksum.step in Hd.
        rewrite Hpanic in Hd. rewrite decide_True in Hd; [done|].
        repeat split; [lia|done|done].
  - destruct (sum_list_with_pos_lookup busy_w (tasks s)) as (i & p & Hi & Hp).
    { unfold busy in Hb. lia. }
    destruct p as [|e|]; simpl in Hp; [| |lia].
    + pose proof (Hstuck (Work i)) as Hd. unfold Checksum.step in Hd.
      rewrite Hpanic, Hi in Hd. unfold Checksum.result in Hd.
      apply lookup_lt_Some in Hi.
      destruct (lookup_lt_is_Some_2 tables i) as [t Ht]; [lia|].
      destruct (lookup_lt_is_Some_2 newTables i) as [nt Hnt]; [lia|].
      rewrite Ht, Hnt in Hd. by destruct (validate cl i t nt).
    + pose proof (Hstuck (Recv i)) as Hd. unfold Checksum.step in Hd.
      by rewrite Hpanic, Hret, Hi in Hd.
Qed.

Lemma result_defined i :
  (length tables ≤ length newTables)%nat → (i < length tables)%nat →
  is_Some (result i).
Proof.
  intros Hlen Hi. unfold Checksum.result.
  destruct (lookup_lt_is_Some_2 tables i) as [t ->]; [lia|].
  destruct (lookup_lt_is_Some_2 newTables i) as [nt ->]; [lia|].
  by eexists.
Qed.

Lemma nil_return_complete s :
  Inv s → ret s = Some None →
  progress s = length tables ∧
  ∀ i, (i < length tables)%nat → result i = Some None.
Proof.
  intros ([_ Hcl] & _ & Hret & _) Hr. unfold inv_ret in Hret.
  rewrite Hr in Hret. destruct Hret as (Hc & Hprog & Hall).
  split; [done|]. intros i Hi. destruct (Hcl Hc) as [Hlen _].
  destruct (lookup_lt_is_Some_2 (tasks s) i) as [p Hp]; [lia|].
  by destruct (Hall _ _ Hp).
Qed.

Lemma error_return_genuine s e :
  Inv s → ret s = Some (Some e) →
  ∃ i, (i < length tables)%nat ∧ result i = Some (Some e).
Proof.
  intros ([Hle _] & _ & Hret & _) Hr. unfold inv_ret in Hret.
  rewrite Hr in Hret. destruct Hret as (i & Hi & Hres).
  exists i. split; [|done]. apply lookup_lt_Some in Hi. lia.
Qed.
End Preservation.

Lemma validate_mismatch cl i table newTable startTS resp :
  GetTS cl i = inr startTS →
  Build cl newTable table startTS = None →
  Execute cl newTable startTS = inr resp →
  Checksum resp ≠ Crc64Xor table ∨ resp_TotalKvs resp ≠ TotalKvs table ∨
    resp_TotalBytes resp ≠ TotalBytes table →
  validate cl i table newTable = Some checksum_failed.
Proof.
  intros Hts Hb He Hne. unfold validate. rewrite Hts, Hb, He.
  destruct (Z.eqb_spec (Checksum resp) (Crc64Xor table));
    destruct (Z.eqb_spec (resp_TotalKvs resp) (TotalKvs table));
    destruct (Z.eqb_spec (resp_TotalBytes resp) (TotalBytes table));
    simpl; try done.
  naive_solver.
Qed.

(** C1, as the code has it.  With a pool of at least one worker and a new
    table for every table: no run of the call is infinite and a run that
    cannot move has returned.  A nil return comes only after every table was
    validated with no error, the counter then being the number of tables.
    An error return gives the error of one table's validation, the first
    one the caller receives; the call does not wait for the other tables.
    When exactly one table fails, every complete run returns the error of
    that table; a table whose computed digest, count or size differs from
    the stored ones fails with the fixed checksum error. *)
Theorem ValidateChecksum_returns_first_error (cl : cluster) (width : nat)
    (tables : list Table) (newTables : list TableInfo)
    (sched : list choice) (s : state) :
  (0 < width)%nat → (length tables ≤ length newTables)%nat →
  run cl width tables newTables sched init = Some s →
  sn (steps cl width tables newTables) s ∧
  ((∀ c, step cl width tables newTables c s = None) → ret s ≠ None) ∧
  (ret s = Some None →
   progress s = length tables ∧
   ∀ i, (i < length tables)%nat → result cl tables newTables i = Some None) ∧
  (∀ e, ret s = Some (Some e) →
   ∃ i, (i < length tables)%nat ∧ result cl tables newTables i = Some (Some e)) ∧
  (∀ k e,
     result cl tables newTables k = Some (Some e) →
     (∀ i, i ≠ k → (i < length tables)%nat →
           result cl tables newTables i = Some None) →
     (∀ c, step cl width tables newTables c s = None) →
     ret s = Some (Some e)) ∧
  (∀ i table newTable startTS resp,
     GetTS cl i = inr startTS →
     Build cl newTable table startTS = None →
     Execute cl newTable startTS = inr resp →
     Checksum resp ≠ Crc64Xor table ∨ resp_TotalKvs resp ≠ TotalKvs table ∨
       resp_TotalBytes resp ≠ TotalBytes table →
     validate cl i table newTable = Some checksum_failed).
Proof.
  intros Hw Hlen Hrun.
  pose proof (cs_Inv_reachable _ _ _ _ _ (cs_run_reachable _ _ _ _ _ _ Hrun)) as HI.
  split; [apply cs_steps_sn|].
  split; [by apply cs_steps_progress|].
  split; [by apply nil_return_complete|].
  split; [intros e; by apply error_return_genuine|].
  split; [|apply validate_mismatch].
  intros k e Hk Hothers Hstuck.
  pose proof (cs_steps_progress _ _ _ _ _ Hw Hlen HI Hstuck) as Hret.
  destruct (ret s) as [[e'|]|] eqn:Hr; [| |done].
  - destruct (error_return_genuine _ _ _ _ _ HI Hr) as (i & Hi & Hres).
    destruct (decide (i = k)) as [->|Hne]; [congruence|].
    rewrite (Hothers i Hne Hi) in Hres. done.
  - destruct (nil_return_complete _ _ _ _ HI Hr) as [_ Hall].
    destruct (decide (k < length tables)%nat) as [Hlt|Hge].
    + rewrite (Hall k Hlt) in Hk. done.
    + unfold result in Hk. rewrite (lookup_ge_None_2 tables k) in Hk by lia.
      done.
Qed.

(** [ValidateChecksum_returns_first_error] on the example of the
    specification, the task of [T1] completing first. *)
Lemma ValidateChecksum_returns_first_error_witness :
  run ex_cluster 64 [ex_T1; ex_T2] [ex_new_T1; ex_new_T2] ex_sched_late init =
    Some ex_after_late ∧
  sn (steps ex_cluster 64 [ex_T1; ex_T2] [ex_new_T1; ex_new_T2]) ex_after_late ∧
  ∃ i, (i < 2)%nat ∧
       result ex_cluster [ex_T1; ex_T2] [ex_new_T1; ex_new_T2] i =
       Some (Some checksum_failed).
Proof.
  split; [reflexivity|].
  destruct (ValidateChecksum_returns_first_error ex_cluster 64
              [ex_T1; ex_T2] [ex_new_T1; ex_new_T2] ex_sched_late ex_after_late)
    as (H1 & _ & _ & H4 & _); [lia|simpl; lia|reflexivity|].
  split; [exact H1|]. exact (H4 checksum_failed eq_refl).
Defined.

(** C1 as worded fails on the code: in the example of the specification the
    caller has the error of [T2] in hand while the validation of [T1] has
    not completed; the error is the fixed message, which names no table. *)
Lemma ValidateChecksum_returns_before_all_computed :
  run ex_cluster 64 [ex_T1; ex_T2] [ex_new_T1; ex_new_T2] ex_sched_early init =
    Some ex_after_early ∧
  ret ex_after_early = Some (Some "failed to validate checksum") ∧
  tasks ex_after_early !! 0%nat = Some Running ∧
  progress ex_after_early = 0%nat ∧
  result ex_cluster [ex_T1; ex_T2] [ex_new_T1; ex_new_T2] 0 = Some None ∧
  result ex_cluster [ex_T1; ex_T2] [ex_new_T1; ex_new_T2] 1 =
    Some (Some "failed to validate checksum").
Proof. repeat split; reflexivity. Qed.
End ChecksumFacts.
(** ** More on the schema-history filter *)

Module HistoryMore.
Import History HistoryFacts.

(** *** The databases of the tables *)

Lemma getDatabases_from_spec seen tables :
  NoDup (db_ID <$> getDatabases_from seen tables) ∧
  (∀ id, id ∈ db_ID <$> getDatabases_from seen tables → id ∉ seen) ∧
  (∀ t, t ∈ tables →
        db_ID (Db t) ∈ seen ∨ db_ID (Db t) ∈ db_ID <$> getDatabases_from seen tables) ∧
  getDatabases_from seen tables `sublist_of` (Db <$> tables).
Proof.
  revert seen. induction tables as [|t tables IH]; intros seen.
  - simpl. repeat split; [constructor|set_solver|set_solver|constructor].
  - cbn [getDatabases_from]. case_bool_decide as Hin.
    + destruct (IH seen) as (Hnd & Hfresh & Hcov & Hsub).
      repeat split; [done|done| |by apply sublist_cons].
      intros t' [->|Ht']%elem_of_cons; [by left|by apply Hcov].
    + destruct (IH ({[db_ID (Db t)]} ∪ seen)) as (Hnd & Hfresh & Hcov & Hsub).
      rewrite !fmap_cons. repeat split.
      * apply NoDup_cons. split; [|done].
        intros Hid. apply Hfresh in Hid. set_solver.
      * intros id [->|Hid]%elem_of_cons; [done|].
        apply Hfresh in Hid. set_solver.
      * intros t' [->|Ht']%elem_of_cons; [right; left|].
        destruct (Hcov t' Ht') as [Hs|Hr]; [|by right; right].
        apply elem_of_union in Hs as [->%elem_of_singleton|Hs];
          [right; left|by left].
      * by apply sublist_skip.
Qed.

Lemma getDatabases_from_snoc seen pre t :
  getDatabases_from seen (pre ++ [t]) =
  getDatabases_from seen pre ++
  (if bool_decide (db_ID (Db t) ∈ seen ∨
                   db_ID (Db t) ∈ (λ t', db_ID (Db t')) <$> pre)
   then [] else [Db t]).
Proof.
  revert seen. induction pre as [|p pre IH]; intros seen.
  - simpl. repeat case_bool_decide; set_solver.
  - rewrite <- app_comm_cons, fmap_cons. cbn [getDatabases_from].
    case_bool_decide as Hp.
    + rewrite IH. f_equal.
      erewrite bool_decide_ext; [done|].
      rewrite elem_of_cons. split; [tauto|].
      intros [?|[->|?]]; tauto.
    + rewrite IH, <- app_comm_cons. do 2 f_equal.
      erewrite bool_decide_ext; [done|].
      rewrite elem_of_cons, elem_of_union, elem_of_singleton. tauto.
Qed.

(** X1.  [getDatabases] goes through the tables from the first to the last
    and appends the database of a table exactly when no earlier table has a
    database of the same identifier: of the tables of one identifier the
    first gives the database that is returned, at the place of that table.
    So the identifiers of the result are pairwise distinct, every table's
    database identifier is among them, and the result is a sublist of the
    tables' databases. *)
Theorem getDatabases_first_occurrence :
  getDatabases [] = [] ∧
  (∀ pre t,
     getDatabases (pre ++ [t]) =
     getDatabases pre ++
     (if bool_decide (db_ID (Db t) ∈ (λ t', db_ID (Db t')) <$> pre)
      then [] else [Db t])) ∧
  (∀ tables,
     NoDup (db_ID <$> getDatabases tables) ∧
     (∀ t, t ∈ tables → db_ID (Db t) ∈ db_ID <$> getDatabases tables) ∧
     getDatabases tables `sublist_of` (Db <$> tables)).
Proof.
  split; [done|]. split.
  - intros pre t. unfold getDatabases. rewrite getDatabases_from_snoc.
    f_equal. erewrite bool_decide_ext; [done|]. set_solver.
  - intros tables.
    destruct (getDatabases_from_spec ∅ tables) as (Hnd & _ & Hcov & Hsub).
    repeat split; [done| |done].
    intros t Ht. destruct (Hcov t Ht) as [?|?]; [set_solver|done].
Qed.

(** *** What the filter returns *)

Section Walk.
Variable selects : alias → Job → bool.
Variable extend : alias → Job → alias.

Lemma selected_sublist a jobs :
  selected selects extend a jobs `sublist_of` jobs.
Proof.
  revert a. induction jobs as [|job rest IH]; intros a; simpl; [done|].
  destruct (selects a job); [by apply sublist_skip|by apply sublist_cons].
Qed.

Lemma selected_selects a jobs job :
  job ∈ selected selects extend a jobs → ∃ a', selects a' job = true.
Proof.
  revert a. induction jobs as [|j rest IH]; intros a; simpl.
  - by intros ?%elem_of_nil.
  - destruct (selects a j) eqn:Hs; [|by apply IH].
    intros [->|Hin]%elem_of_cons; [by exists a|by eapply IH].
Qed.

(** A job that passes the test at the place where the walk meets it is
    among the selected ones. *)
Lemma selected_at a pre job post :
  selects (alias_after selects extend a pre) job = true →
  job ∈ selected selects extend a (pre ++ job :: post).
Proof.
  intros Hs. rewrite selected_app. apply elem_of_app. right.
  simpl. rewrite Hs. left.
Qed.
End Walk.

Lemma sublist_elem {A} (k l : list A) x : k `sublist_of` l → x ∈ k → x ∈ l.
Proof.
  intros Hs Hx. eapply elem_of_submseteq; [done|by apply sublist_submseteq].
Qed.

Lemma desc_sublist l k : k `sublist_of` l → desc l → desc k.
Proof.
  unfold desc. induction 1 as [|x k l Hsub IH|x k l Hsub IH]; intros Hl.
  - constructor.
  - apply StronglySorted_inv in Hl as [Hl Hx]. constructor; [by apply IH|].
    rewrite Forall_forall in Hx. rewrite Forall_forall. intros y Hy.
    apply Hx. by eapply sublist_elem.
  - apply StronglySorted_inv in Hl as [Hl _]. by apply IH.
Qed.

(** X2.  Every job [FilterDDLJobs] returns is a job of the history that
    carries a [DBInfo] or a [TableInfo]; with no tables it returns none. *)
Theorem FilterDDLJobs_sound (allDDLJobs : list Job) (tables : list Table) :
  Forall (λ job, job ∈ allDDLJobs ∧
                 (is_Some (hist_DBInfo (BinlogInfo job)) ∨
                  is_Some (hist_TableInfo (BinlogInfo job))))
         (FilterDDLJobs allDDLJobs tables) ∧
  FilterDDLJobs allDDLJobs [] = [].
Proof.
  split; [|done]. rewrite FilterDDLJobs_selected. apply Forall_app. split.
  - apply Forall_forall. intros job Hjob.
    apply list_elem_of_In, in_flat_map in Hjob as (db & _ & Hjob).
    apply list_elem_of_In in Hjob. split.
    + rewrite <- (sort_desc_perm allDDLJobs).
      eapply sublist_elem; [apply selected_sublist|done].
    + left. apply selected_selects in Hjob as [a' Ha'].
      apply db_selects_iff in Ha' as (di & -> & _). by eexists.
  - apply Forall_forall. intros job Hjob.
    apply list_elem_of_In, in_flat_map in Hjob as (t & _ & Hjob).
    apply list_elem_of_In in Hjob. split.
    + rewrite <- (sort_desc_perm allDDLJobs).
      eapply sublist_elem; [apply selected_sublist|done].
    + right. apply selected_selects in Hjob as [a' Ha'].
      apply tbl_selects_iff in Ha' as (ti & -> & _). by eexists.
Qed.

(** X3.  The result is the concatenation of one run per database of the
    tables followed by one run per table; each run is a subsequence of the
    history sorted by descending version, hence itself in descending version
    order. *)
Theorem FilterDDLJobs_runs (allDDLJobs : list Job) (tables : list Table) :
  ∃ runs,
    FilterDDLJobs allDDLJobs tables = concat runs ∧
    length runs = (length (getDatabases tables) + length tables)%nat ∧
    Forall (λ r, r `sublist_of` sort_desc allDDLJobs ∧ desc r) runs.
Proof.
  exists (map (λ db, selected db_selects db_extend (db_seed db)
                       (sort_desc allDDLJobs)) (getDatabases tables) ++
          map (λ t, selected tbl_selects tbl_extend (tbl_seed t)
                      (sort_desc allDDLJobs)) tables).
  split; [|split].
  - rewrite FilterDDLJobs_selected, concat_app. by rewrite !flat_map_concat_map.
  - by rewrite length_app, !length_map.
  - apply Forall_app. split; apply Forall_forall; intros r Hr;
      apply list_elem_of_In, in_map_iff in Hr as (x & <- & _);
      (split; [apply selected_sublist|]);
      (eapply desc_sublist; [apply selected_sublist|apply sort_desc_sorted]).
Qed.

Lemma db_alias_grows a jobs :
  ids a ⊆ ids (alias_after db_selects db_extend a jobs) ∧
  names a ⊆ names (alias_after db_selects db_extend a jobs).
Proof. destruct (db_alias_closure a jobs) as [-> ->]. set_solver. Qed.

Lemma tbl_alias_grows a jobs :
  ids a ⊆ ids (alias_after tbl_selects tbl_extend a jobs) ∧
  names a ⊆ names (alias_after tbl_selects tbl_extend a jobs).
Proof. destruct (tbl_alias_closure a jobs) as [-> ->]. set_solver. Qed.

(** X4.  A job of the history that carries a [TableInfo] and whose
    [TableID] is the identifier of a table to restore, or whose [TableInfo]
    name is the name of that table, is returned; likewise a job that carries
    a [DBInfo] and matches the identifier or the name of one of the databases
    [getDatabases] keeps.  The alias sets only grow, so a direct match is
    never lost, wherever the job stands in the history. *)
Theorem FilterDDLJobs_direct (allDDLJobs : list Job) (tables : list Table)
    (job : Job) :
  job ∈ allDDLJobs →
  (∀ t ti, t ∈ tables → hist_TableInfo (BinlogInfo job) = Some ti →
           TableID job = tbl_ID (Info t) ∨ tbl_Name ti = tbl_Name (Info t) →
           job ∈ FilterDDLJobs allDDLJobs tables) ∧
  (∀ db di, db ∈ getDatabases tables → hist_DBInfo (BinlogInfo job) = Some di →
            SchemaID job = db_ID db ∨ db_Name di = db_Name db →
            job ∈ FilterDDLJobs allDDLJobs tables).
Proof.
  intros Hjob. rewrite <- (sort_desc_perm allDDLJobs) in Hjob.
  apply list_elem_of_split in Hjob as (pre & post & Hsplit).
  rewrite FilterDDLJobs_selected. split.
  - intros t ti Ht Hti Hmatch. apply elem_of_app. right.
    apply list_elem_of_In, in_flat_map. exists t.
    split; [by apply list_elem_of_In|]. apply list_elem_of_In.
    rewrite Hsplit. apply selected_at. apply tbl_selects_iff.
    exists ti. split; [done|].
    destruct (tbl_alias_grows (tbl_seed t) pre) as [Hids Hnames].
    destruct Hmatch as [Hid|Hname]; [left|right].
    + apply Hids. rewrite Hid. simpl. set_solver.
    + apply Hnames. rewrite Hname. simpl. set_solver.
  - intros db di Hdb Hdi Hmatch. apply elem_of_app. left.
    apply list_elem_of_In, in_flat_map. exists db.
    split; [by apply list_elem_of_In|]. apply list_elem_of_In.
    rewrite Hsplit. apply selected_at. apply db_selects_iff.
    exists di. split; [done|].
    destruct (db_alias_grows (db_seed db) pre) as [Hids Hnames].
    destruct Hmatch as [Hid|Hname]; [left|right].
    + apply Hids. rewrite Hid. simpl. set_solver.
    + apply Hnames. rewrite Hname. simpl. set_solver.
Qed.

(** [FilterDDLJobs_direct] on the sample history: the job of table [t]. *)
Lemma FilterDDLJobs_direct_witness :
  ex_job_t ∈ FilterDDLJobs ex_history [ex_table].
Proof.
  refine (proj1 (FilterDDLJobs_direct ex_history [ex_table] ex_job_t _)
                ex_table (mkTableInfo 10 "t" 0) _ eq_refl (or_introl eq_refl)).
  - apply elem_of_cons. by left.
  - apply elem_of_cons. by left.
Defined.

(** X5.  The order in which the history is stored does not matter when the
    versions are pairwise distinct: two arrangements of the same jobs give
    the same result, with the stable routine and with any other sorting
    routine. *)
Theorem FilterDDLJobs_order_independent (all1 all2 : list Job)
    (tables : list Table) :
  all1 ≡ₚ all2 → NoDup (ver <$> all1) →
  FilterDDLJobs all1 tables = FilterDDLJobs all2 tables ∧
  (∀ sort, sorts_desc sort →
           FilterDDLJobs_with sort all1 tables = FilterDDLJobs all2 tables).
Proof.
  intros Hp Hnd.
  assert (sort_desc all2 = sort_desc all1) as Heq.
  { apply sort_desc_unique; [done|apply sort_desc_sorted|].
    by rewrite sort_desc_perm. }
  assert (FilterDDLJobs all1 tables = FilterDDLJobs all2 tables) as Hsame.
  { unfold FilterDDLJobs, FilterDDLJobs_with. by rewrite Heq. }
  split; [done|]. intros sort Hsort.
  by rewrite FilterDDLJobs_with_canonical.
Qed.

(** [FilterDDLJobs_order_independent] on the sample history and its
    reverse. *)
Lemma FilterDDLJobs_order_independent_witness :
  FilterDDLJobs ex_history [ex_table] =
  FilterDDLJobs (reverse ex_history) [ex_table].
Proof.
  refine (proj1 (FilterDDLJobs_order_independent ex_history (reverse ex_history)
                   [ex_table] _ _)).
  - symmetry. apply reverse_Permutation.
  - apply (bool_decide_unpack (NoDup (ver <$> ex_history))). vm_compute. exact I.
Defined.

End HistoryMore.

(** ** Replaying schema changes *)

Module ReplayFacts.
Import History HistoryFacts Schema Replay.

Lemma insert_asc_perm j l : insert_asc j l ≡ₚ j :: l.
Proof.
  induction l as [|k l IH]; simpl; [done|].
  destruct (ver k <? ver j); [|done].
  rewrite IH. apply Permutation_swap.
Qed.

Lemma sort_asc_perm l : sort_asc l ≡ₚ l.
Proof.
  induction l as [|j l IH]; simpl; [done|].
  unfold sort_asc in *. simpl. rewrite insert_asc_perm. by f_equiv.
Qed.

Lemma insert_asc_sorted j l : asc l → asc (insert_asc j l).
Proof.
  unfold asc. induction 1 as [|k l Hl IH Hk]; simpl.
  - repeat constructor.
  - destruct (Z.ltb_spec (ver k) (ver j)).
    + constructor; [done|].
      rewrite Forall_forall. intros x Hx.
      rewrite insert_asc_perm in Hx.
      apply elem_of_cons in Hx as [->|Hx]; [lia|].
      rewrite Forall_forall in Hk. by apply Hk.
    + constructor; [by constructor|].
      constructor; [done|].
      eapply Forall_impl; [exact Hk|]. simpl. intros. lia.
Qed.

Lemma sort_asc_sorted l : asc (sort_asc l).
Proof.
  induction l as [|j l IH]; [constructor|].
  apply insert_asc_sorted, IH.
Qed.

Lemma asc_perm_unique l1 l2 :
  NoDup (ver <$> l1) → asc l1 → asc l2 → l1 ≡ₚ l2 → l1 = l2.
Proof.
  revert l2. induction l1 as [|a l1 IH]; intros l2 Hnd H1 H2 Hp.
  - by apply Permutation_nil_l in Hp.
  - destruct l2 as [|b l2]; [by apply Permutation_nil_r in Hp|].
    apply NoDup_cons in Hnd as [Ha Hnd].
    apply StronglySorted_inv in H1 as [H1 Ha1].
    apply StronglySorted_inv in H2 as [H2 Hb2].
    rewrite Forall_forall in Ha1, Hb2.
    assert (a = b) as ->.
    { assert (a ∈ b :: l2) as Hab by (rewrite <- Hp; left).
      assert (b ∈ a :: l1) as Hba by (rewrite Hp; left).
      apply elem_of_cons in Hab as [?|Hab]; [done|].
      apply elem_of_cons in Hba as [?|Hba]; [done|].
      pose proof (Hb2 _ Hab) as Hle1. pose proof (Ha1 _ Hba) as Hle2.
      simpl in Hle1, Hle2.
      exfalso. apply Ha. assert (ver a = ver b) as -> by lia.
      by apply list_elem_of_fmap_2. }
    f_equal. apply IH; try done. by apply Permutation_cons_inv in Hp.
Qed.

Section Session.
Context {session : Type}.
Variable Execute : session → string → session * option error.

Local Abbreviation ExecDDL := (ExecDDL Execute).
Local Abbreviation exec_jobs := (exec_jobs Execute).
Local Abbreviation ExecDDLs := (ExecDDLs Execute).

Lemma exec_log st sql :
  (exec Execute st sql).1.2 = st.2 ++ [sql].
Proof. unfold exec. by destruct (Execute st.1 sql). Qed.

(** One job: a prefix of its statements is executed, all of them when the
    result is nil. *)
Lemma ExecDDL_log job st :
  (∃ k, (ExecDDL job st).1.2 = st.2 ++ take k (statements job)) ∧
  ((ExecDDL job st).2 = None →
   (ExecDDL job st).1.2 = st.2 ++ statements job).
Proof.
  unfold Replay.ExecDDL, statements.
  destruct (hist_TableInfo (BinlogInfo job)).
  - destruct (exec Execute st (useSQL job)) as [st1 [e|]] eqn:E1.
    + pose proof (exec_log st (useSQL job)) as Hl. rewrite E1 in Hl.
      split; [by exists 1%nat|done].
    + pose proof (exec_log st (useSQL job)) as Hl. rewrite E1 in Hl.
      simpl in Hl. rewrite exec_log, Hl, <- app_assoc. simpl.
      split; [by exists 2%nat|done].
  - rewrite exec_log. split; [by exists 1%nat|done].
Qed.

Lemma exec_jobs_log jobs st :
  (∃ k, (exec_jobs jobs st).1.2 = st.2 ++ take k (flat_map statements jobs)) ∧
  ((exec_jobs jobs st).2 = None →
   (exec_jobs jobs st).1.2 = st.2 ++ flat_map statements jobs).
Proof.
  revert st. induction jobs as [|job rest IH]; intros st; simpl.
  - split; [exists 0%nat|]; by rewrite ?app_nil_r.
  - destruct (ExecDDL_log job st) as [[k Hk] Hall].
    destruct (ExecDDL job st) as [st1 [e|]] eqn:E1; simpl in *.
    + split; [|done].
      destruct (decide (k ≤ length (statements job))%nat).
      * exists k. by rewrite take_app_le.
      * exists (length (statements job)). rewrite take_app_length.
        rewrite Hk. by rewrite take_ge by lia.
    + specialize (Hall eq_refl).
      destruct (IH st1) as [[k' Hk'] Hall'].
      split.
      * exists (length (statements job) + k')%nat.
        rewrite Hk', Hall, <- app_assoc. f_equal.
        by rewrite take_app_add.
      * intros Hnil. by rewrite Hall', Hall, <- app_assoc.
Qed.

Lemma exec_jobs_app pre post st :
  exec_jobs (pre ++ post) st =
  match exec_jobs pre st with
  | (st1, Some e) => (st1, Some e)
  | (st1, None) => exec_jobs post st1
  end.
Proof.
  revert st. induction pre as [|job pre IH]; intros st; simpl; [done|].
  destruct (ExecDDL job st) as [st1 [e|]]; [done|apply IH].
Qed.

(** X6.  [ExecDDLs] executes the statements of the jobs in ascending
    version order, whatever the order of its argument: what it executes
    is a prefix of the statements of the sorted jobs, each job with a
    [TableInfo] preceded by the switch to its schema, and all of them when
    it returns nil.  Jobs given twice are executed twice. *)
Theorem ExecDDLs_ascending (ddlJobs : list Job) (st : session * list string) :
  asc (sort_asc ddlJobs) ∧ sort_asc ddlJobs ≡ₚ ddlJobs ∧
  (∃ k, (ExecDDLs ddlJobs st).1.2 =
        st.2 ++ take k (flat_map statements (sort_asc ddlJobs))) ∧
  ((ExecDDLs ddlJobs st).2 = None →
   (ExecDDLs ddlJobs st).1.2 =
   st.2 ++ flat_map statements (sort_asc ddlJobs)).
Proof.
  split; [apply sort_asc_sorted|]. split; [apply sort_asc_perm|].
  apply exec_jobs_log.
Qed.

(** X7.  [ExecDDLs] stops at the first job that fails: when the jobs
    before [job] in version order succeed and [job] fails, the call
    returns the error of [job] in the state [job] left, and no statement
    of a later job is executed. *)
Theorem ExecDDLs_stops (ddlJobs pre post : list Job) (job : Job)
    (st st1 st2 : session * list string) (e : error) :
  sort_asc ddlJobs = pre ++ job :: post →
  exec_jobs pre st = (st1, None) →
  ExecDDL job st1 = (st2, Some e) →
  ExecDDLs ddlJobs st = (st2, Some e) ∧
  ∃ k, st2.2 = st.2 ++ flat_map statements pre ++ take k (statements job).
Proof.
  intros Hsort Hpre Hjob. unfold Replay.ExecDDLs.
  rewrite Hsort, exec_jobs_app, Hpre. simpl. rewrite Hjob.
  split; [done|].
  destruct (exec_jobs_log pre st) as [_ Hlog]. rewrite Hpre in Hlog.
  destruct (ExecDDL_log job st1) as [[k Hk] _]. rewrite Hjob in Hk.
  exists k. simpl in *. by rewrite Hk, Hlog, <- app_assoc.
Qed.

(** X8.  With pairwise distinct versions the result of [ExecDDLs] does
    not depend on the order in which the jobs are given. *)
Theorem ExecDDLs_order_independent (jobs1 jobs2 : list Job)
    (st : session * list string) :
  jobs1 ≡ₚ jobs2 → NoDup (ver <$> jobs1) →
  ExecDDLs jobs1 st = ExecDDLs jobs2 st.
Proof.
  intros Hp Hnd. unfold Replay.ExecDDLs.
  rewrite (asc_perm_unique (sort_asc jobs1) (sort_asc jobs2)); [done| | | |].
  - by rewrite sort_asc_perm.
  - apply sort_asc_sorted.
  - apply sort_asc_sorted.
  - by rewrite !sort_asc_perm.
Qed.
End Session.

(** [ExecDDLs_stops] on the sample jobs, the engine refusing the creation of
    the table: the later [alter table] is not executed. *)
Lemma ExecDDLs_stops_witness :
  ExecDDLs (ex_refusing "create table t (c int)") ex_jobs (tt, []) =
    ((tt, ["create database a"; "use a;"; "create table t (c int)"]),
     Some "statement failed").
Proof.
  refine (proj1 (ExecDDLs_stops (ex_refusing "create table t (c int)") ex_jobs
                   [mkJob 1 0 "a" "create database a"
                          (mkHistoryInfo 1 (Some (mkDBInfo 1 "a")) None)]
                   [mkJob 1 10 "a" "alter table t add column e int"
                          (mkHistoryInfo 3 None (Some (mkTableInfo 10 "t" 0)))]
                   (mkJob 1 10 "a" "create table t (c int)"
                          (mkHistoryInfo 2 None (Some (mkTableInfo 10 "t" 0))))
                   (tt, []) (tt, ["create database a"])
                   (tt, ["create database a"; "use a;"; "create table t (c int)"])
                   "statement failed" _ _ _)); reflexivity.
Defined.

(** [ExecDDLs_order_independent] on the sample jobs and their reverse. *)
Lemma ExecDDLs_order_independent_witness :
  ExecDDLs (ex_refusing "") ex_jobs (tt, []) =
  ExecDDLs (ex_refusing "") (reverse ex_jobs) (tt, []).
Proof.
  apply ExecDDLs_order_independent.
  - symmetry. apply reverse_Permutation.
  - apply (bool_decide_unpack (NoDup (ver <$> ex_jobs))). vm_compute. exact I.
Defined.

End ReplayFacts.

(** ** Creating the tables of a restore *)

Module TablesFacts.
Import Schema Tables.

Section CreateTables.
Context {session : Type} {rule : Type}.
Variable Execute : session → string → session * option error.
Variable escapeTableName : string → string.
Variable ShowCreate : Table → error + string.
Variable GetTableSchema : session → string → string → error + TableInfo.
Variable GetRewriteRules : TableInfo → TableInfo → Z → list rule * list rule.

Local Abbreviation create_tables :=
  (create_tables Execute escapeTableName ShowCreate GetTableSchema
                 GetRewriteRules).
Local Abbreviation CreateTables :=
  (CreateTables Execute escapeTableName ShowCreate GetTableSchema
                GetRewriteRules).

Lemma create_tables_ok tables newTS acc st st' tr dr nts :
  create_tables tables newTS acc st = (st', inr (tr, dr, nts)) →
  ∃ news,
    length news = length tables ∧
    nts = acc.2 ++ news ∧
    tr = acc.1.1 ++
         flat_map (λ p, (GetRewriteRules p.1 (Info p.2) newTS).1) (zip news tables) ∧
    dr = acc.1.2 ++
         flat_map (λ p, (GetRewriteRules p.1 (Info p.2) newTS).2) (zip news tables) ∧
    Forall2 (λ nt t, ∃ se, GetTableSchema se (db_Name (Db t)) (tbl_Name (Info t))
                           = inr nt) news tables.
Proof.
  revert acc st. induction tables as [|t tables IH]; intros acc st; simpl.
  - intros [= ? ->]. exists []. simpl. rewrite !app_nil_r.
    by repeat split.
  - destruct (CreateTable Execute escapeTableName (ShowCreate t) t st)
      as [st1 [e|]]; [done|].
    destruct (GetTableSchema st1.1 (db_Name (Db t)) (tbl_Name (Info t)))
      as [e|nt] eqn:Hnt; [done|].
    intros Hrest. apply IH in Hrest as (news & Hlen & -> & -> & -> & Hall).
    exists (nt :: news). simpl.
    rewrite <- !app_assoc. repeat split; [by rewrite Hlen|].
    constructor; [by exists st1.1|done].
Qed.

(** The sessions the loop passes through: one per table, each reached
    from the one before by [CreateTable] on that table, and the new table
    read from it. *)
Lemma create_tables_trace tables newTS acc st st' tr dr nts :
  create_tables tables newTS acc st = (st', inr (tr, dr, nts)) →
  ∃ news sts,
    nts = acc.2 ++ news ∧
    length sts = length tables ∧
    last (st :: sts) = Some st' ∧
    ∀ i t, tables !! i = Some t →
      ∃ s0 s1 nt,
        (st :: sts) !! i = Some s0 ∧ sts !! i = Some s1 ∧
        news !! i = Some nt ∧
        CreateTable Execute escapeTableName (ShowCreate t) t s0 = (s1, None) ∧
        GetTableSchema s1.1 (db_Name (Db t)) (tbl_Name (Info t)) = inr nt.
Proof.
  revert acc st. induction tables as [|t tables IH]; intros acc st; simpl.
  - intros [= <- ->]. exists [], []. simpl. rewrite app_nil_r.
    repeat split; done.
  - destruct (CreateTable Execute escapeTableName (ShowCreate t) t st)
      as [st1 [e|]] eqn:Hct; [done|].
    destruct (GetTableSchema st1.1 (db_Name (Db t)) (tbl_Name (Info t)))
      as [e|nt] eqn:Hnt; [done|].
    intros Hrest.
    apply IH in Hrest as (news & sts & -> & Hlen & Hlast & Hall).
    exists (nt :: news), (st1 :: sts). simpl.
    rewrite <- app_assoc. repeat split; [by rewrite Hlen|done|].
    intros [|i] t'; simpl.
    + intros [= <-]. by exists st, st1, nt.
    + intros Ht'. by apply Hall.
Qed.

(** X9.  When [CreateTables] succeeds it returns one new table per table,
    in the order of its argument, and the table rules and data rules are
    those of the tables one after the other in the same order.  The new
    table at a position is the schema read for the name of the table at
    that position from the session as [CreateTable] on this very table
    left it: after its statements and those of the tables before it,
    before the statements of the tables after it.  The session returned is
    the one the last table left. *)
Theorem CreateTables_in_order (tables : list Table) (newTS : Z)
    (st st' : session * list string) (tr dr : list rule)
    (newTables : list TableInfo) :
  CreateTables tables newTS st = (st', inr (tr, dr, newTables)) →
  length newTables = length tables ∧
  tr = flat_map (λ p, (GetRewriteRules p.1 (Info p.2) newTS).1)
                (zip newTables tables) ∧
  dr = flat_map (λ p, (GetRewriteRules p.1 (Info p.2) newTS).2)
                (zip newTables tables) ∧
  ∃ sts : list (session * list string),
    length sts = length tables ∧
    last (st :: sts) = Some st' ∧
    ∀ i t, tables !! i = Some t →
      ∃ s0 s1 nt,
        (st :: sts) !! i = Some s0 ∧ sts !! i = Some s1 ∧
        newTables !! i = Some nt ∧
        CreateTable Execute escapeTableName (ShowCreate t) t s0 = (s1, None) ∧
        GetTableSchema s1.1 (db_Name (Db t)) (tbl_Name (Info t)) = inr nt.
Proof.
  intros H. pose proof H as H'.
  apply create_tables_ok in H as (news & Hlen & -> & -> & -> & _).
  apply create_tables_trace in H' as (news' & sts & Heq & Hl & Hlast & Hall).
  simpl in *. subst news'. repeat split; try done. by exists sts.
Qed.

(** X10.  The new tables of a successful [CreateTables] fit
    [ValidateChecksum]: whatever the cluster, the pool and the schedule,
    the dispatching goroutine never indexes [newTables] out of range. *)
Theorem CreateTables_then_ValidateChecksum (tables : list Table) (newTS : Z)
    (st st' : session * list string) (tr dr : list rule)
    (newTables : list TableInfo) (cl : Checksum.cluster) (width : nat)
    (sched : list Checksum.choice) (s : Checksum.state) :
  CreateTables tables newTS st = (st', inr (tr, dr, newTables)) →
  Checksum.run cl width tables newTables sched Checksum.init = Some s →
  Checksum.panicked s = false.
Proof.
  intros Hc Hrun.
  apply create_tables_ok in Hc as (news & Hlen & -> & _). simpl in *.
  pose proof (ChecksumFacts.cs_Inv_reachable _ _ _ _ _
                (ChecksumFacts.cs_run_reachable _ _ _ _ _ _ Hrun))
    as (_ & _ & _ & Hp).
  apply Hp. lia.
Qed.
End CreateTables.

(** [CreateTables_in_order] on two tables, the sample engine and the lookup
    that finds a table only once it was created. *)
Lemma CreateTables_in_order_witness :
  length [mkTableInfo 110 "t" 42; mkTableInfo 111 "u" 7] =
    length [Schema.ex_table; mkTable (mkDBInfo 1 "test") (mkTableInfo 11 "u" 7) 0 0 0] ∧
  [(10, 110); (11, 111)] =
    flat_map (λ p, (ex_rules p.1 (Info p.2) 400).1)
      (zip [mkTableInfo 110 "t" 42; mkTableInfo 111 "u" 7]
           [Schema.ex_table; mkTable (mkDBInfo 1 "test") (mkTableInfo 11 "u" 7) 0 0 0]).
Proof.
  destruct (CreateTables_in_order ex_execute ex_escape ex_show
              (ex_schema_live [Schema.ex_table;
                          mkTable (mkDBInfo 1 "test") (mkTableInfo 11 "u" 7) 0 0 0])
              ex_rules
              [Schema.ex_table; mkTable (mkDBInfo 1 "test") (mkTableInfo 11 "u" 7) 0 0 0]
              400 ([], [])
              (["`t`"; "`u`"],
               ["use test;"; "CREATE TABLE IF NOT EXISTS `t` (`a` int(11))";
                "alter table `t` auto_increment = 42";
                "use test;"; "CREATE TABLE IF NOT EXISTS `u` (`a` int(11))";
                "alter table `u` auto_increment = 7"])
              [(10, 110); (11, 111)] []
              [mkTableInfo 110 "t" 42; mkTableInfo 111 "u" 7])
    as (H1 & H2 & _); [reflexivity|].
  split; [exact H1|exact H2].
Defined.

(** [CreateTables_then_ValidateChecksum] on the two tables of the checksum
    example, created with the sample collaborators. *)
Lemma CreateTables_then_ValidateChecksum_witness :
  Checksum.panicked
    (Checksum.mkState None [Checksum.Sending "failed to validate checksum";
                            Checksum.Running] false false 0) = false.
Proof.
  apply (CreateTables_then_ValidateChecksum ex_execute ex_escape ex_show
           (ex_schema [Checksum.ex_T1; Checksum.ex_T2]) ex_rules
           [Checksum.ex_T1; Checksum.ex_T2] 400 ([], [])
           (["`T1`"; "`T2`"],
            ["use test;"; "CREATE TABLE IF NOT EXISTS `T1` (`a` int(11))";
             "alter table `T1` auto_increment = 0"; "use test;";
             "CREATE TABLE IF NOT EXISTS `T2` (`a` int(11))";
             "alter table `T2` auto_increment = 0"])
           [(10, 110); (11, 111)] []
           [mkTableInfo 110 "T1" 0; mkTableInfo 111 "T2" 0]
           Checksum.ex_cluster 64
           [Checksum.Dispatch; Checksum.Dispatch; Checksum.Work 0]);
    reflexivity.
Defined.

End TablesFacts.

(** ** More on the broadcasts *)

Module BroadcastMore.
Import Broadcast BroadcastFacts Limits.

Lemma limit_stores_accepting n pre rest rpcs :
  forallb (accepts n) pre = true →
  limit_stores n (pre ++ rest) rpcs =
  limit_stores n rest (rpcs ++ (store_id <$> pre)).
Proof.
  revert rpcs. induction pre as [|s pre IH]; intros rpcs Hall; simpl.
  - by rewrite app_nil_r.
  - simpl in Hall. apply andb_prop in Hall as [Hs Hall].
    apply bool_decide_eq_true in Hs. rewrite Hs, IH by done.
    by rewrite <- app_assoc.
Qed.

(** X11.  When the rate-limit call fails at node [k], after it succeeded at
    the nodes before [k], [setSpeedLimit] returns the error of [k] having
    called exactly the nodes up to [k]; the flag stays unset and the limits
    already applied stay applied, so the next call that succeeds calls every
    node again, those before [k] included. *)
Theorem setSpeedLimit_fails_at (n n' : net) (rc : Client) (rpcs : list Z)
    (pre post : list Store) (k : Store) (e : error) :
  hasSpeedLimited rc = false → rateLimit rc ≠ 0 →
  GetAllStores n = inr (pre ++ k :: post) →
  forallb (accepts n) pre = true →
  setDownloadSpeedLimit n (store_id k) = Some e →
  GetAllStores n' = inr (pre ++ k :: post) →
  forallb (accepts n') (pre ++ k :: post) = true →
  let called := rpcs ++ (store_id <$> pre) ++ [store_id k] in
  setSpeedLimit n rc rpcs = (rc, called, Some e) ∧
  setSpeedLimit n' rc called =
    (mkClient (rateLimit rc) true (ctx_done rc),
     called ++ (store_id <$> pre ++ k :: post), None).
Proof.
  intros Hflag Hrate Hstores Hpre Hk Hstores' Hall called.
  unfold setSpeedLimit. rewrite Hflag, Hstores, Hstores'. simpl.
  destruct (Z.eqb_spec (rateLimit rc) 0); [done|]. simpl.
  rewrite limit_stores_accepting by done. simpl. rewrite Hk.
  split; [by rewrite <- app_assoc|].
  rewrite <- (app_nil_r (pre ++ k :: post)) at 1.
  rewrite limit_stores_accepting by done. done.
Qed.

(** [setSpeedLimit_fails_at] on the sample cluster, node 2 refusing the call
    the first time. *)
Lemma setSpeedLimit_fails_at_witness :
  setSpeedLimit (mkNet (inr ex_stores) (λ _, None) (λ _, None) (λ _, None)
                       (λ id, if id =? 2 then Some "unavailable" else None))
                (mkClient 128 false false) [] =
    (mkClient 128 false false, [1; 2], Some "unavailable").
Proof.
  refine (proj1 (setSpeedLimit_fails_at
            (mkNet (inr ex_stores) (λ _, None) (λ _, None) (λ _, None)
                   (λ id, if id =? 2 then Some "unavailable" else None))
            (mkNet (inr ex_stores) (λ _, None) (λ _, None) (λ _, None) (λ _, None))
            (mkClient 128 false false) []
            [mkStore 1 "tikv-1:20160"] [mkStore 3 "tikv-3:20160"]
            (mkStore 2 "tikv-2:20160") "unavailable" _ _ _ _ _ _ _));
    try reflexivity.
  simpl. lia.
Defined.

(** X12.  A rate limit of zero does not use up the one-shot: the call does
    nothing, whatever the cluster answers, and once a non-zero limit is set
    the next call applies it to every live node and sets the flag. *)
Theorem zero_rate_limit_keeps_one_shot (n n' : net) (rc : Client)
    (rpcs : list Z) (r : Z) (stores : list Store) :
  hasSpeedLimited rc = false → rateLimit rc = 0 → r ≠ 0 →
  GetAllStores n' = inr stores → forallb (accepts n') stores = true →
  setSpeedLimit n rc rpcs = (rc, rpcs, None) ∧
  setSpeedLimit n' (Restore.SetRateLimit rc r) rpcs =
    (mkClient r true (ctx_done rc), rpcs ++ (store_id <$> stores), None).
Proof.
  intros Hflag Hzero Hr Hstores Hall. unfold setSpeedLimit.
  rewrite Hflag, Hzero. simpl. split; [done|].
  rewrite Hflag, Hstores. destruct (Z.eqb_spec r 0); [done|]. simpl.
  rewrite <- (app_nil_r stores) at 1.
  by rewrite limit_stores_accepting.
Qed.

(** [zero_rate_limit_keeps_one_shot] on the sample cluster. *)
Lemma zero_rate_limit_keeps_one_shot_witness :
  setSpeedLimit Restore.ex_all_up (mkClient 0 false false) [] =
    (mkClient 0 false false, [], None) ∧
  setSpeedLimit Restore.ex_all_up
      (Restore.SetRateLimit (mkClient 0 false false) 128) [] =
    (mkClient 128 true false, [1; 2; 3], None).
Proof.
  apply (zero_rate_limit_keeps_one_shot Restore.ex_all_up Restore.ex_all_up
           (mkClient 0 false false) [] 128 ex_stores); try reflexivity.
  lia.
Defined.

(** X13.  When every live node answers, switching to import mode and then
    back to normal mode succeeds twice and leaves every live node in normal
    mode and every other node as it was; a cluster whose live nodes were in
    normal mode is back in its initial state. *)
Theorem switch_import_then_normal (n : net) (c : cluster)
    (stores : list Store) :
  GetAllStores n = inr stores → forallb (answers n) stores = true →
  ∃ c1 c2,
    SwitchToImportMode n c = (c1, None) ∧
    SwitchToNormalMode n c1 = (c2, None) ∧
    (∀ s, s ∈ stores → c1 !! store_id s = Some SwitchMode_Import) ∧
    (∀ s, s ∈ stores → c2 !! store_id s = Some SwitchMode_Normal) ∧
    (∀ id, id ∉ store_id <$> stores → c2 !! id = c !! id) ∧
    ((∀ s, s ∈ stores → c !! store_id s = Some SwitchMode_Normal) → c2 = c).
Proof.
  intros Hstores Hall.
  exists (foldl (λ c s, <[store_id s := SwitchMode_Import]> c) c stores).
  eexists. unfold SwitchToImportMode, SwitchToNormalMode.
  rewrite !(switch_all_answering n _ _ stores) by done.
  split; [done|]. split; [done|].
  assert (∀ s, s ∈ stores → store_id s ∈ store_id <$> stores) as Hin.
  { intros s Hs. by apply list_elem_of_fmap_2. }
  split; [|split; [|split]].
  - intros s Hs. rewrite applied_lookup. by rewrite bool_decide_eq_true_2 by auto.
  - intros s Hs. rewrite applied_lookup. by rewrite bool_decide_eq_true_2 by auto.
  - intros id Hid. rewrite !applied_lookup. by rewrite !bool_decide_eq_false_2.
  - intros Hnormal. apply map_eq. intros id. rewrite !applied_lookup.
    case_bool_decide as Hid; [|done].
    apply list_elem_of_fmap in Hid as (s & -> & Hs). by rewrite Hnormal.
Qed.

(** [switch_import_then_normal] on the sample cluster with every node
    up. *)
Lemma switch_import_then_normal_witness :
  ∃ c1 c2,
    SwitchToImportMode Restore.ex_all_up ∅ = (c1, None) ∧
    SwitchToNormalMode Restore.ex_all_up c1 = (c2, None).
Proof.
  destruct (switch_import_then_normal Restore.ex_all_up ∅ ex_stores)
    as (c1 & c2 & H1 & H2 & _); [reflexivity|reflexivity|].
  by exists c1, c2.
Defined.

End BroadcastMore.

(** ** More on restoring files *)

Module RestoreMore.
Import Restore RestoreFacts.

Section Bounds.
Variable Import : File → option error.
Variable width : nat.
Variable files : list File.

Local Abbreviation step := (step Import width files).
Local Abbreviation run := (run Import width files).

Lemma busy_step c s s' :
  (busy (tasks s) ≤ width)%nat → step c s = Some s' →
  (busy (tasks s') ≤ width)%nat.
Proof.
  unfold busy. intros Hb Hs.
  step_cases Hs; unfold busy in *; simpl in *;
    rewrite ?sum_list_with_app in *; simpl in *;
    try sum_insert; simpl in *; lia.
Qed.

Lemma busy_run sched s0 s :
  (busy (tasks s0) ≤ width)%nat → run sched s0 = Some s →
  (busy (tasks s) ≤ width)%nat.
Proof.
  revert s0. induction sched as [|c sched IH]; intros s0 Hb; simpl.
  - by intros [= <-].
  - destruct (Restore.step Import width files c s0) as [s1|] eqn:Hc; [|done].
    apply IH. by eapply busy_step.
Qed.



(** X14.  At any moment of a call at most [width] tasks are running, the
    channel holds at most [len(files)] values, so that no send on it ever
    blocks, and the counter is at most the number of files. *)
Theorem RestoreFiles_bounded (done : bool) (sched : list choice) (s : state) :
  run sched (init done) = Some s →
  (busy (tasks s) ≤ width)%nat ∧
  (length (errCh s) ≤ length files)%nat ∧
  (progress s ≤ length files)%nat.
Proof.
  intros Hrun.
  pose proof (Inv_reachable _ _ _ _ _ (run_reachable _ _ _ _ _ _ Hrun))
    as ([Hle _] & Hcount & _ & _ & _ & Hprog & _).
  split; [eapply busy_run; [|done]; simpl; lia|].
  unfold inv_count in Hcount. pose proof (sent_le (tasks s)).
  split; [lia|]. rewrite Hprog.
  assert (delivered (tasks s) ≤ length (tasks s))%nat; [|lia].
  unfold delivered. clear. induction (tasks s) as [|p ts IH]; simpl; [lia|].
  destruct p as [| | |[|]]; simpl; lia.
Qed.

(** X15.  With the context live at entry and cancelled by nothing but the
    call itself (no [Close] and no cancellation of the parent context
    while the call runs, which is what the moves of [step] cover), a nil
    return is sound: every task has taken the send case with a nil result,
    so every file was imported without error, the call has not cancelled
    the context, and the counter is at the number of files once the tasks
    have finished. *)
Theorem RestoreFiles_nil_sound (sched : list choice) (s : state) :
  run sched (init false) = Some s → pc s = Returned None →
  (∀ f, f ∈ files → Import f = None) ∧
  cancelled s = false ∧
  (busy (tasks s) = 0%nat → progress s = length files).
Proof.
  intros Hrun Hpc.
  pose proof (Inv_reachable _ _ _ _ _ (run_reachable _ _ _ _ _ _ Hrun)) as HI.
  split; [by eapply nil_return_sound|].
  destruct HI as ([_ Hfull] & _ & _ & _ & (_ & _ & Hres) & Hprog & Hlive).
  destruct (Hlive eq_refl) as [_ Hcan]. rewrite Hpc in Hcan, Hfull.
  split; [done|]. intros Hb. rewrite Hprog, <- Hfull by done.
  apply delivered_all; [done|]. by destruct (Hres Hcan).
Qed.

(** X16.  When the call returns, every task of the batch has been
    dispatched and has already sent its value: the deferred
    [close(errCh)] cannot be followed by a send. *)
Theorem RestoreFiles_close_safe (done : bool) (sched : list choice)
    (s : state) (r : option error) :
  run sched (init done) = Some s → pc s = Returned r →
  length (tasks s) = length files ∧
  ∀ i p, tasks s !! i = Some p → sent_w p = 1%nat.
Proof.
  intros Hrun Hpc.
  pose proof (Inv_reachable _ _ _ _ _ (run_reachable _ _ _ _ _ _ Hrun))
    as ([Hle Hfull] & Hcount & _ & Hctl & _).
  rewrite Hpc in Hfull. specialize (Hfull ltac:(done)).
  split; [done|]. intros i p Hi.
  unfold inv_control in Hctl. rewrite Hpc in Hctl.
  destruct r as [e|].
  - destruct Hctl as (_ & Hb & _).
    by destruct (busy_zero_finished _ _ _ Hb Hi) as [b ->].
  - destruct Hctl as [Hlen _]. unfold inv_count in Hcount.
    pose proof (sent_le (tasks s)).
    eapply sent_all; [|done]. lia.
Qed.

(** X17.  With no file the call dispatches nothing and can only return
    nil, whatever the state of the context; the counter stays at zero. *)
Theorem RestoreFiles_empty (done : bool) (sched : list choice) (s : state) :
  files = [] → run sched (init done) = Some s →
  tasks s = [] ∧ progress s = 0%nat ∧ cancelled s = done ∧
  (pc s = Dispatching ∨ pc s = Collecting 0 ∨ pc s = Returned None).
Proof.
  intros Hfiles. unfold init.
  assert (∀ s0, tasks s0 = [] ∧ progress s0 = 0%nat ∧ cancelled s0 = done ∧
                (pc s0 = Dispatching ∨ pc s0 = Collecting 0 ∨
                 pc s0 = Returned None) →
          run sched s0 = Some s →
          tasks s = [] ∧ progress s = 0%nat ∧ cancelled s = done ∧
          (pc s = Dispatching ∨ pc s = Collecting 0 ∨ pc s = Returned None))
    as Hgen; [|apply Hgen; simpl; auto].
  induction sched as [|c sched IH]; intros s0 H0; simpl.
  - by intros [= <-].
  - destruct (Restore.step Import width files c s0) as [s1|] eqn:Hc; [|done].
    apply IH. destruct H0 as (Ht & Hp & Hcan & Hpc). subst files.
    destruct c as [|i b]; cbn [Restore.step] in Hc.
    + unfold main_step in Hc. rewrite Ht in Hc. simpl in Hc.
      destruct Hpc as [Hpc|[Hpc|Hpc]]; rewrite Hpc in Hc; simpl in Hc;
        repeat case_match; simplify_eq; simpl in *; try lia;
        repeat split; auto.
    + unfold task_step in Hc. rewrite Ht in Hc. done.
Qed.
End Bounds.

(** [RestoreFiles_nil_sound] on the batch of two files that import well. *)
Lemma RestoreFiles_nil_sound_witness :
  ex_import ex_good = None ∧ cancelled ex_final_ok = false.
Proof.
  destruct (RestoreFiles_nil_sound ex_import 2 [ex_good; ex_good]
              ex_sched_ok ex_final_ok) as (Hall & Hcan & _);
    [reflexivity|reflexivity|].
  split; [|exact Hcan]. apply Hall. apply elem_of_cons. by left.
Defined.

(** [RestoreFiles_bounded] on the sample batch. *)
Lemma RestoreFiles_bounded_witness :
  (busy (tasks ex_final_two) ≤ 2)%nat.
Proof.
  refine (proj1 (RestoreFiles_bounded ex_import 2 [ex_bad; ex_good] false
                   ex_sched_two ex_final_two _)); reflexivity.
Defined.

(** [RestoreFiles_close_safe] on the sample batch. *)
Lemma RestoreFiles_close_safe_witness :
  length (tasks ex_final_two) = length [ex_bad; ex_good].
Proof.
  refine (proj1 (RestoreFiles_close_safe ex_import 2 [ex_bad; ex_good] false
                   ex_sched_two ex_final_two (Some "import failed") _ _));
    reflexivity.
Defined.

(** [RestoreFiles_empty] with the context cancelled at entry. *)
Lemma RestoreFiles_empty_witness :
  progress (mkState (Returned None) [] [] true 0 []) = 0%nat.
Proof.
  refine (proj1 (proj2 (RestoreFiles_empty ex_import 1 [] true [Main; Main]
                          (mkState (Returned None) [] [] true 0 []) _ _)));
    reflexivity.
Defined.



End RestoreMore.

(** ** More on validating checksums *)

Module ChecksumMore.
Import Checksum ChecksumFacts.

Section Bounds.
Variable cl : cluster.
Variable width : nat.
Variable tables : list Table.
Variable newTables : list TableInfo.

Local Abbreviation step := (step cl width tables newTables).
Local Abbreviation run := (run cl width tables newTables).
Local Abbreviation result := (result cl tables newTables).

Lemma cs_busy_step c s s' :
  (busy (tasks s) ≤ width)%nat → step c s = Some s' →
  (busy (tasks s') ≤ width)%nat.
Proof.
  intros Hb Hs.
  step_cases Hs; unfold busy in *; simpl in *;
    rewrite ?sum_list_with_app in *; simpl in *;
    try sum_insert; simpl in *; lia.
Qed.

Lemma run_ind (P : state → Prop) sched s0 s :
  (∀ c s1 s2, P s1 → step c s1 = Some s2 → P s2) →
  P s0 → run sched s0 = Some s → P s.
Proof.
  intros Hstep. revert s0. induction sched as [|c sched IH]; intros s0 H0; simpl.
  - by intros [= <-].
  - destruct (Checksum.step cl width tables newTables c s0) as [s1|] eqn:Hc;
      [|done].
    apply IH. by eapply Hstep.
Qed.

(** X19.  At any moment of a call at most [width] validations are
    running or blocked in their send, and the counter is at most the
    number of tables dispatched. *)
Theorem ValidateChecksum_bounded (sched : list choice) (s : state) :
  run sched init = Some s →
  (busy (tasks s) ≤ width)%nat ∧
  (length (tasks s) ≤ length tables)%nat ∧
  (progress s ≤ length tables)%nat.
Proof.
  intros Hrun. split.
  { eapply (run_ind (λ s, busy (tasks s) ≤ width)%nat sched init);
      [|unfold busy; simpl; lia|done].
    intros c s1 s2. apply cs_busy_step. }
  pose proof (cs_Inv_reachable _ _ _ _ _ (cs_run_reachable _ _ _ _ _ _ Hrun))
    as ([Hle _] & _ & Hret & _).
  split; [done|]. unfold inv_ret in Hret.
  destruct (ret s) as [[e|]|];
    [|destruct Hret as (_ & -> & _); lia|unfold busy in *; lia].
  (* an error was returned: the counter counts finished tasks *)
  clear Hret.
  assert (progress s + busy (tasks s) ≤ length (tasks s))%nat; [|lia].
  eapply (run_ind (λ s, progress s + busy (tasks s) ≤ length (tasks s))%nat
                  sched init);
    [|unfold busy; simpl; lia|done].
  intros c s1 s2 H1 Hs.
  step_cases Hs; unfold busy in *; simpl in *;
    rewrite ?length_app, ?sum_list_with_app in *; simpl in *;
    try sum_insert; simpl in *; lia.
Qed.

(** X20.  When the validation of every table succeeds, the call never
    returns an error, and every complete run returns nil with the counter
    at the number of tables. *)
Theorem ValidateChecksum_all_valid (sched : list choice) (s : state) :
  (0 < width)%nat → (length tables ≤ length newTables)%nat →
  (∀ i, (i < length tables)%nat → result i = Some None) →
  run sched init = Some s →
  (∀ e, ret s ≠ Some (Some e)) ∧
  ((∀ c, step c s = None) →
   ret s = Some None ∧ progress s = length tables).
Proof.
  intros Hw Hlen Hok Hrun.
  pose proof (cs_Inv_reachable _ _ _ _ _ (cs_run_reachable _ _ _ _ _ _ Hrun))
    as HI.
  assert (∀ e, ret s ≠ Some (Some e)) as Hne.
  { intros e Hr.
    destruct (error_return_genuine _ _ _ _ _ HI Hr) as (i & Hi & Hres).
    rewrite (Hok i Hi) in Hres. done. }
  split; [done|]. intros Hstuck.
  pose proof (cs_steps_progress _ _ _ _ _ Hw Hlen HI Hstuck) as Hret.
  destruct (ret s) as [[e|]|] eqn:Hr; [by destruct (Hne e)| |done].
  split; [done|]. by destruct (nil_return_complete _ _ _ _ HI Hr).
Qed.

Lemma blocked_step c s s' i e :
  ret s ≠ None → tasks s !! i = Some (Sending e) →
  step c s = Some s' →
  ret s' ≠ None ∧ tasks s' !! i = Some (Sending e) ∧ closed s' = closed s.
Proof.
  intros Hret Hi Hs.
  step_cases Hs; simpl in *; try done.
  - split; [done|]. split; [|done]. by apply lookup_app_l_Some.
  - match goal with
    | H : _ ∧ _ ∧ _ |- _ => pose proof H as (_ & Hb & _)
    end.
    by pose proof (cs_busy_zero_finished _ _ _ Hb Hi).
  - split; [done|]. split; [|done].
    rewrite list_lookup_insert_ne; [done|]. intros ->. congruence.
  - split; [done|]. split; [|done].
    rewrite list_lookup_insert_ne; [done|]. intros ->. congruence.
Qed.

(** X21.  Once the call has returned, a task that is blocked sending its
    error stays blocked for ever: nothing receives from [errCh] any more.
    Its worker is never given back to the pool and the dispatching
    goroutine never gets past [wg.Wait], so [errCh] is never closed. *)
Theorem ValidateChecksum_leaks_blocked_task (sched sched' : list choice)
    (s s' : state) (i : nat) (e : error) :
  run sched init = Some s →
  ret s ≠ None → tasks s !! i = Some (Sending e) →
  run sched' s = Some s' →
  tasks s' !! i = Some (Sending e) ∧ closed s' = false ∧
  (0 < busy (tasks s'))%nat.
Proof.
  intros Hrun Hret Hi Hrun'.
  pose proof (cs_Inv_reachable _ _ _ _ _ (cs_run_reachable _ _ _ _ _ _ Hrun))
    as ([_ Hcl] & _).
  assert (closed s = false) as Hclosed.
  { destruct (closed s) eqn:Hc; [|done].
    destruct (Hcl eq_refl) as [_ Hb].
    by pose proof (cs_busy_zero_finished _ _ _ Hb Hi). }
  assert (ret s' ≠ None ∧ tasks s' !! i = Some (Sending e) ∧
          closed s' = false) as (_ & Hi' & Hc').
  { eapply (run_ind (λ s, ret s ≠ None ∧ tasks s !! i = Some (Sending e) ∧
                          closed s = false) sched' s); [|by eauto|done].
    intros c s1 s2 (H1 & H2 & H3) Hs.
    destruct (blocked_step _ _ _ _ _ H1 H2 Hs) as (? & ? & Hc).
    by rewrite Hc. }
  split; [done|]. split; [done|].
  destruct (decide (busy (tasks s') = 0%nat)) as [Hb|]; [|lia].
  by pose proof (cs_busy_zero_finished _ _ _ Hb Hi').
Qed.
End Bounds.

(** [ValidateChecksum_bounded] on the example of the specification. *)
Lemma ValidateChecksum_bounded_witness :
  (busy (tasks ex_after_early) ≤ 64)%nat.
Proof.
  refine (proj1 (ValidateChecksum_bounded ex_cluster 64 [ex_T1; ex_T2]
                   [ex_new_T1; ex_new_T2] ex_sched_early ex_after_early _));
    reflexivity.
Defined.

(** [ValidateChecksum_all_valid] on the table [T1] alone. *)
Lemma ValidateChecksum_all_valid_witness :
  ret (mkState (Some None) [Finished] true false 1) ≠ Some (Some checksum_failed).
Proof.
  refine (proj1 (ValidateChecksum_all_valid ex_cluster 64 [ex_T1] [ex_new_T1]
                   [Dispatch; Work 0; Close; RecvClosed]
                   (mkState (Some None) [Finished] true false 1) _ _ _ _)
                checksum_failed).
  - lia.
  - simpl. lia.
  - intros [|i] Hi; [reflexivity|simpl in Hi; lia].
  - reflexivity.
Defined.

(** [ValidateChecksum_leaks_blocked_task] with two copies of [T2]: the
    caller returns the error of the first, the task of the second stays
    blocked. *)
Lemma ValidateChecksum_leaks_blocked_task_witness :
  tasks (mkState (Some (Some checksum_failed))
                 [Finished; Sending checksum_failed] false false 0) !! 1%nat =
    Some (Sending checksum_failed).
Proof.
  refine (proj1 (ValidateChecksum_leaks_blocked_task ex_cluster 64
                   [ex_T2; ex_T2] [ex_new_T2; ex_new_T2]
                   [Dispatch; Dispatch; Work 0; Work 1; Recv 0] []
                   (mkState (Some (Some checksum_failed))
                            [Finished; Sending checksum_failed] false false 0)
                   _ 1 checksum_failed _ _ _ _)); try reflexivity.
  done.
Defined.

End ChecksumMore.

(** ** More on creating a table *)

Module SchemaMore.
Import Schema SchemaFacts.

Lemma cut_Some s a b :
  cut s = Some (a, b) → s = a +:+ " " +:+ b ∧ has_space a = false.
Proof.
  revert a. induction s as [|c s IH]; intros a; simpl; [done|].
  destruct (Ascii.eqb_spec c " ") as [->|Hne].
  - by intros [= <- <-].
  - destruct (cut s) as [[a' b']|]; [|done]. intros [= <- <-].
    destruct (IH a' eq_refl) as [-> Ha']. simpl. rewrite Ha'.
    split; [done|]. destruct (Ascii.eqb_spec c " "); done.
Qed.

Lemma SplitN_three s w0 w1 w2 :
  SplitN s 3 = [w0; w1; w2] →
  s = w0 +:+ " " +:+ w1 +:+ " " +:+ w2 ∧
  has_space w0 = false ∧ has_space w1 = false.
Proof.
  cbn [SplitN]. destruct (cut s) as [[a b]|] eqn:Hs; [|done].
  destruct (cut b) as [[a' b']|] eqn:Hb; [|done].
  intros [= <- <- <-].
  apply cut_Some in Hs as [-> Ha]. apply cut_Some in Hb as [-> Ha'].
  done.
Qed.

(** X22.  The statement [CreateTable] executes in place of the generated
    one, case by case.  When the generated statement is two words without
    spaces that read CREATE and TABLE in some letter case, each followed by
    one space, and a rest, the statement executed is
    [CREATE TABLE IF NOT EXISTS] followed by the rest, byte for byte.  A
    statement that is not of this form, for instance one with two spaces or
    a line break after CREATE, is executed as it is. *)
Theorem insert_if_not_exists_cases (createSQL : string) :
  (∀ w0 w1 rest,
     createSQL = w0 +:+ " " +:+ w1 +:+ " " +:+ rest →
     has_space w0 = false → has_space w1 = false →
     ToUpper w0 = "CREATE" → ToUpper w1 = "TABLE" →
     insert_if_not_exists createSQL = "CREATE TABLE IF NOT EXISTS " +:+ rest) ∧
  ((¬ ∃ w0 w1 rest,
       createSQL = w0 +:+ " " +:+ w1 +:+ " " +:+ rest ∧
       has_space w0 = false ∧ has_space w1 = false ∧
       ToUpper w0 = "CREATE" ∧ ToUpper w1 = "TABLE") →
   insert_if_not_exists createSQL = createSQL).
Proof.
  split.
  - intros w0 w1 rest -> H0 H1 Hc Ht. by apply insert_if_not_exists_words.
  - intros Hno. unfold insert_if_not_exists.
    destruct (SplitN createSQL 3) as [|w0 [|w1 [|w2 [|??]]]] eqn:Hsplit;
      try done.
    case_bool_decide as Hc; [|done].
    case_bool_decide as Ht; [|done].
    destruct Hno. apply SplitN_three in Hsplit as (-> & H0 & H1).
    by exists w0, w1, w2.
Qed.

(** X23.  The rewrite does not look whether the statement already has
    [IF NOT EXISTS]: applied to its own result it inserts the words a second
    time. *)
Theorem insert_if_not_exists_twice (w0 w1 rest : string) :
  has_space w0 = false → has_space w1 = false →
  ToUpper w0 = "CREATE" → ToUpper w1 = "TABLE" →
  insert_if_not_exists
    (insert_if_not_exists (w0 +:+ " " +:+ w1 +:+ " " +:+ rest)) =
  "CREATE TABLE IF NOT EXISTS IF NOT EXISTS " +:+ rest.
Proof.
  intros H0 H1 Hc Ht. rewrite insert_if_not_exists_words by done.
  change ("CREATE TABLE IF NOT EXISTS " +:+ rest)
    with ("CREATE" +:+ " " +:+ "TABLE" +:+ " " +:+ ("IF NOT EXISTS " +:+ rest)).
  by rewrite insert_if_not_exists_words.
Qed.

(** [insert_if_not_exists_twice] on a statement in lower case. *)
Lemma insert_if_not_exists_twice_witness :
  insert_if_not_exists (insert_if_not_exists "create table t (a int)") =
  "CREATE TABLE IF NOT EXISTS IF NOT EXISTS t (a int)".
Proof.
  apply (insert_if_not_exists_twice "create" "table" "t (a int)");
    reflexivity.
Defined.

Section Session.
Context {session : Type}.
Variable Execute : session → string → session * option error.
Variable escapeTableName : string → string.

Lemma exec_log_eq st sql :
  (exec Execute st sql).1.2 = st.2 ++ [sql].
Proof. unfold exec. by destruct (Execute st.1 sql). Qed.

End Session.

End SchemaMore.
